(** * Interlink: a shallow embedding of [src/interlink.js]

    Strings are byte strings ([String.string]): JavaScript text is modelled
    by its UTF-8 bytes, which is what the URL standard percent-encodes.
    Numbers are integers ([Z]); NaN and fractions are not modelled. *)

From Stdlib Require Import String Ascii List ZArith Bool Lia DecimalString.
Set Warnings "-register-all".
Import ListNotations.
Open Scope string_scope.
Open Scope bool_scope.

(* ================================================================= *)
(** ** Byte and string helpers *)

Definition byte_of (c : ascii) : nat := nat_of_ascii c.

Definition in_range (lo hi : ascii) (c : ascii) : bool :=
  (byte_of lo <=? byte_of c)%nat && (byte_of c <=? byte_of hi)%nat.

(** ECMAScript [String.prototype.trim] removes the WhiteSpace and
    LineTerminator code points at both ends: TAB, LF, VT, FF, CR, SPACE,
    U+00A0, U+1680, U+2000 to U+200A, U+2028, U+2029, U+202F, U+205F,
    U+3000 and U+FEFF.  In UTF-8 these are the one-byte [is_js_space], the
    two bytes [C2 A0] ([js_space2]) and the three-byte sequences of
    [js_space3]. *)
Definition is_js_space (c : ascii) : bool :=
  in_range "009"%char "013"%char c || Ascii.eqb c " "%char.

Definition js_space2 (a b : ascii) : bool :=
  (byte_of a =? 194)%nat && (byte_of b =? 160)%nat.

Definition js_space3 (a b c : ascii) : bool :=
  let x := byte_of a in let y := byte_of b in let z := byte_of c in
  (Nat.eqb x 225 && Nat.eqb y 154 && Nat.eqb z 128)                 (* U+1680 *)
  || (Nat.eqb x 226 && Nat.eqb y 128 &&
      ((Nat.leb 128 z && Nat.leb z 138) || Nat.eqb z 168 || Nat.eqb z 169 || Nat.eqb z 175))
                                      (* U+2000 to U+200A, U+2028, U+2029, U+202F *)
  || (Nat.eqb x 226 && Nat.eqb y 129 && Nat.eqb z 159)              (* U+205F *)
  || (Nat.eqb x 227 && Nat.eqb y 128 && Nat.eqb z 128)              (* U+3000 *)
  || (Nat.eqb x 239 && Nat.eqb y 187 && Nat.eqb z 191).             (* U+FEFF *)

(** Drops the leading code points that [sp2] and [sp3] (and
    [is_js_space]) recognise. *)
Fixpoint ltrim_with (sp2 : ascii -> ascii -> bool) (sp3 : ascii -> ascii -> ascii -> bool)
    (s : string) : string :=
  match s with
  | EmptyString => EmptyString
  | String a s1 =>
      if is_js_space a then ltrim_with sp2 sp3 s1
      else match s1 with
           | String b s2 =>
               if sp2 a b then ltrim_with sp2 sp3 s2
               else match s2 with
                    | String c s3 => if sp3 a b c then ltrim_with sp2 sp3 s3 else s
                    | EmptyString => s
                    end
           | EmptyString => s
           end
  end.

Definition ltrim (s : string) : string := ltrim_with js_space2 js_space3 s.

Fixpoint rev_str (s : string) : string :=
  match s with
  | EmptyString => EmptyString
  | String c s' => rev_str s' ++ String c EmptyString
  end.

(** The end is trimmed on the reversed bytes, where a code point's bytes
    come in reverse order. *)
Definition rtrim (s : string) : string :=
  rev_str (ltrim_with (fun b a => js_space2 a b) (fun c b a => js_space3 a b c) (rev_str s)).

Definition trim (s : string) : string := rtrim (ltrim s).

(** [s.indexOf(c)] for a one-character pattern, split at that first
    occurrence. *)
Fixpoint split_first (d : ascii) (s : string) : option (string * string) :=
  match s with
  | EmptyString => None
  | String c s' =>
      if Ascii.eqb c d then Some (EmptyString, s')
      else match split_first d s' with
           | Some (a, b) => Some (String c a, b)
           | None => None
           end
  end.

(** [s.split(d)] for a one-character separator. *)
Fixpoint split_on (d : ascii) (s : string) : list string :=
  match s with
  | EmptyString => [EmptyString]
  | String c s' =>
      if Ascii.eqb c d then EmptyString :: split_on d s'
      else match split_on d s' with
           | x :: r => String c x :: r
           | [] => [String c EmptyString]
           end
  end.

Fixpoint str_forallb (f : ascii -> bool) (s : string) : bool :=
  match s with
  | EmptyString => true
  | String c s' => f c && str_forallb f s'
  end.

(* ================================================================= *)
(** ** Regular expressions

    The two regular expressions of the source, [/^[A-Za-z0-9_-]+$/] and
    [/^https?:$/i], are built from anchors, character classes, [+] and [?].
    [re_match] is a backtracking matcher for such atom sequences; greedy
    quantifiers try the longest run first, as ECMAScript does. *)

Inductive atom : Type :=
  | ABol                              (* ^ *)
  | AEol                              (* $ *)
  | AClass (cl : list (ascii * ascii)) (* [..] or a literal character *)
  | APlus (cl : list (ascii * ascii))  (* [..]+ *)
  | AOpt (cl : list (ascii * ascii)).  (* [..]? *)

Definition in_ranges (cl : list (ascii * ascii)) (c : ascii) : bool :=
  existsb (fun r => in_range (fst r) (snd r) c) cl.

Definition ascii_upper (c : ascii) : ascii :=
  if in_range "a"%char "z"%char c then ascii_of_nat (byte_of c - 32) else c.

Definition ascii_lower (c : ascii) : ascii :=
  if in_range "A"%char "Z"%char c then ascii_of_nat (byte_of c + 32) else c.

(** With the [i] flag both sides are canonicalised (upper-cased). *)
Definition class_has (ci : bool) (cl : list (ascii * ascii)) (c : ascii) : bool :=
  if ci then existsb (fun d => Ascii.eqb (ascii_upper d) (ascii_upper c))
               (flat_map (fun r => map ascii_of_nat
                   (seq (byte_of (fst r)) (S (byte_of (snd r)) - byte_of (fst r)))) cl)
  else in_ranges cl c.

Fixpoint plus_try (ci : bool) (cl : list (ascii * ascii)) (k : string -> bool)
    (s : string) : bool :=
  match s with
  | EmptyString => false
  | String c s' => class_has ci cl c && (plus_try ci cl k s' || k s')
  end.

Fixpoint re_match (ci : bool) (ats : list atom) (at_start : bool) (s : string) : bool :=
  match ats with
  | [] => true
  | ABol :: r => at_start && re_match ci r at_start s
  | AEol :: r => match s with EmptyString => re_match ci r at_start s | _ => false end
  | AClass cl :: r =>
      match s with
      | String c s' => class_has ci cl c && re_match ci r false s'
      | EmptyString => false
      end
  | APlus cl :: r => plus_try ci cl (fun s' => re_match ci r false s') s
  | AOpt cl :: r =>
      match s with
      | String c s' => class_has ci cl c && re_match ci r false s'
      | EmptyString => false
      end || re_match ci r at_start s
  end.

(** [RegExp.prototype.test]: a match starting at some position. *)
Fixpoint re_search (ci : bool) (ats : list atom) (at_start : bool) (s : string) : bool :=
  re_match ci ats at_start s ||
  match s with
  | EmptyString => false
  | String _ s' => re_search ci ats false s'
  end.

Definition re_test (ci : bool) (ats : list atom) (s : string) : bool :=
  re_search ci ats true s.

Definition chr (c : ascii) : list (ascii * ascii) := [(c, c)].

(** [/^[A-Za-z0-9_-]+$/] *)
Definition id_regex : list atom :=
  [ABol; APlus [("A","Z"); ("a","z"); ("0","9"); ("_","_"); ("-","-")]%char; AEol].

(** [/^https?:$/i] *)
Definition http_regex : list atom :=
  [ABol; AClass (chr "h"); AClass (chr "t"); AClass (chr "t"); AClass (chr "p");
   AOpt (chr "s"); AClass (chr ":"); AEol]%char.

(** [function sanitizeId(v){ return /^[A-Za-z0-9_-]+$/.test(v) ? v : ''; }] *)
Definition sanitizeId (v : string) : string :=
  if re_test false id_regex v then v else "".

(* ================================================================= *)
(** ** JavaScript values

    [JArr] holds [None] for a hole.  Objects are plain data objects, their
    own enumerable properties listed in [Object.values] order.  A function
    value carries its source text (what [String(f)] returns) and the
    outcome of calling it: [JFun src false v] returns [v], [JFun src true v]
    throws [v]. *)

Inductive jsval : Type :=
  | JUndef
  | JNull
  | JBool (b : bool)
  | JNum (n : Z)
  | JStr (s : string)
  | JArr (xs : list (option jsval))
  | JObj (ps : list (string * jsval))
  | JFun (src : string) (throws : bool) (v : jsval).

(** Exceptions: a [TypeError] raised by the engine or a value thrown by
    user code. *)
Inductive exn : Type :=
  | TypeError (msg : string)
  | Thrown (v : jsval).

Inductive res (A : Type) : Type :=
  | Ok (a : A)
  | Exc (e : exn).
Arguments Ok {A} a.
Arguments Exc {A} e.

Notation "x <- m ;; k" :=
  (match m with Ok x => k | Exc e => Exc e end)
  (at level 61, m at next level, right associativity).

Definition truthy (v : jsval) : bool :=
  match v with
  | JUndef | JNull => false
  | JBool b => b
  | JNum n => negb (Z.eqb n 0)
  | JStr s => negb (String.eqb s "")
  | _ => true
  end.

(** [a || b] and [a ?? b]. *)
Definition js_or (a b : jsval) : jsval := if truthy a then a else b.

Definition nullish (v : jsval) : bool :=
  match v with JUndef | JNull => true | _ => false end.

Definition js_coalesce (a b : jsval) : jsval := if nullish a then b else a.

Definition typeof (v : jsval) : string :=
  match v with
  | JUndef => "undefined"
  | JNull => "object"
  | JBool _ => "boolean"
  | JNum _ => "number"
  | JStr _ => "string"
  | JArr _ | JObj _ => "object"
  | JFun _ _ _ => "function"
  end.

Definition is_array (v : jsval) : bool :=
  match v with JArr _ => true | _ => false end.

(** [x === s] for a string [s]. *)
Definition strict_eq_str (v : jsval) (s : string) : bool :=
  match v with JStr t => String.eqb t s | _ => false end.

Fixpoint assoc_lookup (k : string) (ps : list (string * jsval)) : option jsval :=
  match ps with
  | [] => None
  | (k', v) :: ps' => if String.eqb k k' then Some v else assoc_lookup k ps'
  end.

(** Properties every plain object inherits from [Object.prototype]. *)
Definition object_proto_methods : list string :=
  ["constructor"; "hasOwnProperty"; "isPrototypeOf"; "propertyIsEnumerable";
   "toLocaleString"; "toString"; "valueOf"; "__defineGetter__";
   "__defineSetter__"; "__lookupGetter__"; "__lookupSetter__"].

Definition native_fn (name : string) : jsval :=
  JFun ("function " ++ name ++ "() { [native code] }") false JUndef.

Definition object_proto_get (k : string) : jsval :=
  if String.eqb k "__proto__" then JObj []
  else if existsb (String.eqb k) object_proto_methods then native_fn k
  else JUndef.

Fixpoint digits_value (s : string) (acc : nat) : option nat :=
  match s with
  | EmptyString => Some acc
  | String c s' =>
      if in_range "0"%char "9"%char c
      then digits_value s' (acc * 10 + (byte_of c - 48))
      else None
  end.

(** A canonical array index: digits, no leading zero. *)
Definition array_index (k : string) : option nat :=
  match k with
  | EmptyString => None
  | String "0"%char EmptyString => Some 0%nat
  | String "0"%char _ => None
  | _ => digits_value k 0
  end.

(** [v[k]].  Reading a property of [undefined] or [null] throws.  The
    property names the source reads (id, quizId, title, description, url,
    variants, variant, name, param, params) are not inherited by arrays,
    strings, numbers, booleans or functions, so on these only [length] and
    indices are modelled. *)
Definition get_prop (v : jsval) (k : string) : res jsval :=
  match v with
  | JUndef | JNull => Exc (TypeError ("Cannot read properties of " ++ typeof v))
  | JObj ps =>
      match assoc_lookup k ps with
      | Some x => Ok x
      | None => Ok (object_proto_get k)
      end
  | JArr xs =>
      if String.eqb k "length" then Ok (JNum (Z.of_nat (length xs)))
      else match array_index k with
           | Some i => Ok (match nth_error xs i with Some (Some x) => x | _ => JUndef end)
           | None => Ok JUndef
           end
  | JStr s =>
      if String.eqb k "length" then Ok (JNum (Z.of_nat (String.length s)))
      else match array_index k with
           | Some i => Ok (match String.get i s with
                           | Some c => JStr (String c EmptyString)
                           | None => JUndef end)
           | None => Ok JUndef
           end
  | _ => Ok JUndef
  end.

(** [v.trim()]: strings trim; an object calls its own [trim] method;
    anything else has no [trim] method. *)
Definition js_trim (v : jsval) : res jsval :=
  match v with
  | JStr s => Ok (JStr (trim s))
  | JObj ps =>
      match assoc_lookup "trim" ps with
      | Some (JFun _ false r) => Ok r
      | Some (JFun _ true r) => Exc (Thrown r)
      | _ => Exc (TypeError "trim is not a function")
      end
  | _ => Exc (TypeError "trim is not a function")
  end.

(* ----------------------------------------------------------------- *)
(** *** Conversions *)

Definition Z_to_dec (z : Z) : string :=
  NilEmpty.string_of_int (Z.to_int z).

Definition is_primitive (v : jsval) : bool :=
  match v with JArr _ | JObj _ | JFun _ _ _ => false | _ => true end.

Definition prim_to_string (v : jsval) : string :=
  match v with
  | JUndef => "undefined"
  | JNull => "null"
  | JBool true => "true"
  | JBool false => "false"
  | JNum n => Z_to_dec n
  | JStr s => s
  | _ => ""
  end.

(** OrdinaryToPrimitive on a plain object: try [toString] then [valueOf]
    (hint string) or the other way round (hint default); an own property
    shadows the inherited method. *)
Definition obj_to_primitive (string_first : bool) (ps : list (string * jsval)) : res jsval :=
  let try_method (m : string) (next : res jsval) : res jsval :=
    match assoc_lookup m ps with
    | Some (JFun _ true r) => Exc (Thrown r)
    | Some (JFun _ false r) => if is_primitive r then Ok r else next
    | Some _ => next
    | None => if String.eqb m "toString" then Ok (JStr "[object Object]") else next
    end in
  let fail := Exc (TypeError "Cannot convert object to primitive value") in
  if string_first
  then try_method "toString" (try_method "valueOf" fail)
  else try_method "valueOf" (try_method "toString" fail).

Fixpoint join_comma (xs : list string) : string :=
  match xs with
  | [] => ""
  | [x] => x
  | x :: r => x ++ "," ++ join_comma r
  end.

(** [String(v)] (ToString).  An array joins its elements with commas,
    holes, [undefined] and [null] giving the empty string; a function gives
    its source text. *)
Fixpoint to_string (v : jsval) : res string :=
  match v with
  | JArr xs =>
      let fix go (xs : list (option jsval)) : res (list string) :=
        match xs with
        | [] => Ok []
        | None :: r => t <- go r ;; Ok ("" :: t)
        | Some x :: r =>
            h <- (if nullish x then Ok "" else to_string x) ;;
            t <- go r ;; Ok (h :: t)
        end in
      parts <- go xs ;; Ok (join_comma parts)
  | JFun src _ _ => Ok src
  | JObj ps => p <- obj_to_primitive true ps ;; Ok (prim_to_string p)
  | _ => Ok (prim_to_string v)
  end.

(** [a + s] for a string [s]: ToPrimitive with the default hint, then
    string concatenation. *)
Definition add_string (a : jsval) (s : string) : res string :=
  match a with
  | JObj ps => p <- obj_to_primitive false ps ;; Ok (prim_to_string p ++ s)
  | _ => t <- to_string a ;; Ok (t ++ s)
  end.

(* ================================================================= *)
(** ** Options *)

(** [normalizeOptions(opts)]: the object literal's properties are read in
    order; a non-object or falsy [opts] is replaced by [{}].
<<
  function normalizeOptions(opts){
    if (!opts || typeof opts !== 'object') opts = {};
    return {
      dataset: opts.dataset,
      resolveItem: opts.resolveItem,
      target: opts.target || 'main.portal',
      readFlags: opts.readFlags !== false,
      header: (typeof opts.header === 'undefined') ? true : opts.header,
      headerTitle: opts.headerTitle || '海城中学高等学校',
      headerSubject: opts.headerSubject || '情報科',
      loadingMessage: opts.loadingMessage || '読み込み中…'
    };
  }
>> *)
Definition normalizeOptions (opts : jsval) : res jsval :=
  let opts := if negb (truthy opts) || negb (String.eqb (typeof opts) "object")
              then JObj [] else opts in
  dataset <- get_prop opts "dataset" ;;
  resolveItem <- get_prop opts "resolveItem" ;;
  target <- get_prop opts "target" ;;
  readFlags <- get_prop opts "readFlags" ;;
  header <- get_prop opts "header" ;;
  headerTitle <- get_prop opts "headerTitle" ;;
  headerSubject <- get_prop opts "headerSubject" ;;
  loadingMessage <- get_prop opts "loadingMessage" ;;
  Ok (JObj [("dataset", dataset); ("resolveItem", resolveItem);
            ("target", js_or target (JStr "main.portal"));
            ("readFlags", JBool (match readFlags with JBool false => false | _ => true end));
            ("header", if String.eqb (typeof header) "undefined" then JBool true else header);
            ("headerTitle", js_or headerTitle (JStr "海城中学高等学校"));
            ("headerSubject", js_or headerSubject (JStr "情報科"));
            ("loadingMessage", js_or loadingMessage (JStr "読み込み中…"))]).

(* ================================================================= *)
(** ** Dataset resolution *)

(** [resolveDataset(ds)].  [data] is the value of the identifier [data]
    seen from the script ([JUndef] when it is unbound or undefined, which
    [typeof] does not distinguish) and [globalThis_data] that of
    [globalThis.data].
<<
  function resolveDataset(ds){
    try { if (typeof ds === 'function') ds = ds(); } catch {}
    if (ds) return ds;
    if (typeof data !== 'undefined') return data;
    if (typeof globalThis !== 'undefined' && typeof globalThis.data !== 'undefined') return globalThis.data;
    return undefined;
  }
>> *)
Definition resolveDataset (data globalThis_data : jsval) (ds : jsval) : jsval :=
  let ds := match ds with
            | JFun _ false r => r      (* ds = ds() *)
            | JFun _ true _ => ds      (* the call threw: the catch is empty *)
            | _ => ds
            end in
  if truthy ds then ds
  else if negb (String.eqb (typeof data) "undefined") then data
  else if negb (String.eqb (typeof globalThis_data) "undefined") then globalThis_data
  else JUndef.

(* ================================================================= *)
(** ** Item resolution *)

Record Variant : Type := mkVariant {
  v_variant : jsval;
  v_param : jsval
}.

(** The object literal built by [normalizeItem] (and by the fallback of
    [defaultResolveItem]): exactly these five fields. *)
Record Item : Type := mkItem {
  it_id : jsval;
  it_title : jsval;
  it_description : jsval;
  it_url : string;
  it_variants : list Variant
}.

(** The item as the JavaScript object [render] reads. *)
Definition variant_to_js (v : Variant) : jsval :=
  JObj [("variant", v_variant v); ("param", v_param v)].

Definition item_to_js (it : Item) : jsval :=
  JObj [("id", it_id it); ("title", it_title it); ("description", it_description it);
        ("url", JStr (it_url it));
        ("variants", JArr (map (fun v => Some (variant_to_js v)) (it_variants it)))].

(** [Array.prototype.find]: holes are visited as [undefined]. *)
Fixpoint js_find (p : jsval -> res bool) (xs : list jsval) : res (option jsval) :=
  match xs with
  | [] => Ok None
  | x :: r => b <- p x ;; if b then Ok (Some x) else js_find p r
  end.

Definition array_values (xs : list (option jsval)) : list jsval :=
  map (fun o => match o with Some x => x | None => JUndef end) xs.

(** [Object.values] of a plain object. *)
Definition object_values (ps : list (string * jsval)) : list jsval := map snd ps.

(** [x => x && (x.id === id || x.quizId === id)] *)
Definition matches_id (id : string) (x : jsval) : res bool :=
  if truthy x then
    a <- get_prop x "id" ;;
    if strict_eq_str a id then Ok true
    else b <- get_prop x "quizId" ;; Ok (strict_eq_str b id)
  else Ok false.

(** [v.variant ?? v.name ?? ''] and the like: the second property is read
    only when the first is nullish. *)
Definition prop_coalesce (v : jsval) (k1 k2 : string) : res jsval :=
  a <- get_prop v k1 ;;
  if nullish a then b <- get_prop v k2 ;; Ok (js_coalesce b (JStr "")) else Ok a.

(** [v => v && typeof v === 'object'
           ? { variant: (v.variant ?? v.name ?? '').trim(),
               param: (v.param ?? v.params ?? '').trim() }
           : null] *)
Definition normalize_variant (v : jsval) : res (option Variant) :=
  if truthy v && String.eqb (typeof v) "object" then
    a <- prop_coalesce v "variant" "name" ;;
    a' <- js_trim a ;;
    b <- prop_coalesce v "param" "params" ;;
    b' <- js_trim b ;;
    Ok (Some (mkVariant a' b'))
  else Ok None.

(** [x.variants.map(..).filter(Boolean)]: [map] skips holes and keeps them
    as holes, [filter] drops holes and the [null]s. *)
Fixpoint map_variants (ys : list (option jsval)) : res (list Variant) :=
  match ys with
  | [] => Ok []
  | None :: r => map_variants r
  | Some v :: r =>
      h <- normalize_variant v ;;
      t <- map_variants r ;;
      Ok (match h with Some w => w :: t | None => t end)
  end.

(**
<<
  function normalizeItem(x, id){
    return {
      id: x.id || x.quizId || id,
      title: x.title || id,
      description: (x.description || '').trim(),
      url: typeof x.url === 'string' ? x.url : '',
      variants: Array.isArray(x.variants) ? x.variants.map(..).filter(Boolean) : []
    };
  }
>> *)
Definition normalizeItem (x : jsval) (id : string) : res Item :=
  xid <- get_prop x "id" ;;
  nid <- (if truthy xid then Ok xid
          else xq <- get_prop x "quizId" ;; Ok (js_or xq (JStr id))) ;;
  xt <- get_prop x "title" ;;
  xd <- get_prop x "description" ;;
  d <- js_trim (js_or xd (JStr "")) ;;
  xu <- get_prop x "url" ;;
  xv <- get_prop x "variants" ;;
  vs <- (match xv with JArr ys => map_variants ys | _ => Ok [] end) ;;
  Ok (mkItem nid (js_or xt (JStr id)) d
             (match xu with JStr u => u | _ => "" end) vs).

Definition fallback_item (id : string) : Item :=
  mkItem (JStr id) (JStr id) (JStr "") "" [].

(**
<<
  function defaultResolveItem(id, ds){
    const fallback = { id, title: id, description: '', url: '', variants: [] };
    if (!ds) return fallback;
    if (Array.isArray(ds)) {
      const found = ds.find(x => x && (x.id === id || x.quizId === id));
      return found ? normalizeItem(found, id) : fallback;
    }
    if (typeof ds === 'object') {
      const direct = ds[id];
      if (direct) return normalizeItem(direct, id);
      const via = Object.values(ds).find(x => x && (x.id === id || x.quizId === id));
      return via ? normalizeItem(via, id) : fallback;
    }
    return fallback;
  }
>> *)
Definition defaultResolveItem (id : string) (ds : jsval) : res Item :=
  let fallback := fallback_item id in
  let pick (found : option jsval) :=
    match found with
    | Some x => if truthy x then normalizeItem x id else Ok fallback
    | None => Ok fallback
    end in
  if negb (truthy ds) then Ok fallback
  else match ds with
       | JArr xs => found <- js_find (matches_id id) (array_values xs) ;; pick found
       | JObj ps =>
           direct <- get_prop ds id ;;
           if truthy direct then normalizeItem direct id
           else via <- js_find (matches_id id) (object_values ps) ;; pick via
       | _ => Ok fallback      (* typeof ds is not 'object' *)
       end.

(* ================================================================= *)
(** ** Percent-encoding (URL standard and ECMAScript) *)

Definition hex_digit (n : nat) : ascii :=
  if (n <? 10)%nat then ascii_of_nat (48 + n) else ascii_of_nat (55 + n).

Definition pct (c : ascii) : string :=
  String "%" (String (hex_digit (byte_of c / 16)) (String (hex_digit (byte_of c mod 16)) EmptyString)).

Fixpoint percent_encode (in_set : ascii -> bool) (s : string) : string :=
  match s with
  | EmptyString => EmptyString
  | String c s' => (if in_set c then pct c else String c EmptyString) ++ percent_encode in_set s'
  end.

Definition is_alnum (c : ascii) : bool :=
  in_range "0"%char "9"%char c || in_range "A"%char "Z"%char c || in_range "a"%char "z"%char c.

Definition is_one_of (cs : string) (c : ascii) : bool :=
  negb (str_forallb (fun d => negb (Ascii.eqb c d)) cs).

(** The C0 control percent-encode set and its extensions. *)
(** The double quote, byte 34. *)
Definition dquote : ascii := ascii_of_nat 34.

Definition c0_set (c : ascii) : bool := (byte_of c <? 32)%nat || (126 <? byte_of c)%nat.
Definition fragment_set (c : ascii) : bool := c0_set c || Ascii.eqb c dquote || is_one_of " <>`" c.
Definition query_set (c : ascii) : bool := c0_set c || Ascii.eqb c dquote || is_one_of " #<>" c.
Definition special_query_set (c : ascii) : bool := query_set c || Ascii.eqb c "'"%char.

(** The application/x-www-form-urlencoded percent-encode set: all but
    ASCII alphanumerics and [*-._]. *)
Definition form_set (c : ascii) : bool := negb (is_alnum c || is_one_of "*-._" c).

(** The urlencoded byte serializer: space becomes [+]. *)
Fixpoint form_encode (s : string) : string :=
  match s with
  | EmptyString => EmptyString
  | String c s' =>
      (if Ascii.eqb c " "%char then "+"
       else if form_set c then pct c else String c EmptyString) ++ form_encode s'
  end.

(** [encodeURIComponent]: all but ASCII alphanumerics and [-_.!~*'()]. *)
Definition encodeURIComponent (s : string) : string :=
  percent_encode (fun c => negb (is_alnum c || is_one_of "-_.!~*'()" c)) s.

Definition hex_val (c : ascii) : option nat :=
  if in_range "0"%char "9"%char c then Some (byte_of c - 48)%nat
  else if in_range "A"%char "F"%char c then Some (byte_of c - 55)%nat
  else if in_range "a"%char "f"%char c then Some (byte_of c - 87)%nat
  else None.

Fixpoint percent_decode (s : string) : string :=
  match s with
  | String "%"%char ((String h1 (String h2 r)) as t) =>
      match hex_val h1, hex_val h2 with
      | Some a, Some b => String (ascii_of_nat (a * 16 + b)) (percent_decode r)
      | _, _ => String "%"%char (percent_decode t)
      end
  | String c s' => String c (percent_decode s')
  | EmptyString => EmptyString
  end.

Fixpoint plus_to_space (s : string) : string :=
  match s with
  | EmptyString => EmptyString
  | String c s' => String (if Ascii.eqb c "+"%char then " "%char else c) (plus_to_space s')
  end.

(* ================================================================= *)
(** ** URLSearchParams *)

Definition form_decode (s : string) : string := percent_decode (plus_to_space s).

(** The application/x-www-form-urlencoded parser. *)
Definition form_parse (input : string) : list (string * string) :=
  flat_map (fun seq =>
    if String.eqb seq "" then []
    else match split_first "=" seq with
         | Some (n, v) => [(form_decode n, form_decode v)]
         | None => [(form_decode seq, "")]
         end) (split_on "&" input).

Fixpoint join_amp (xs : list string) : string :=
  match xs with
  | [] => ""
  | [x] => x
  | x :: r => x ++ "&" ++ join_amp r
  end.

(** The application/x-www-form-urlencoded serializer. *)
Definition form_serialize (l : list (string * string)) : string :=
  join_amp (map (fun p => form_encode (fst p) ++ "=" ++ form_encode (snd p)) l).

(** [URLSearchParams.prototype.set] on the list: the first pair named [n]
    takes the value, the later ones are removed; without one the pair is
    appended. *)
Fixpoint set_rest (n v : string) (seen : bool) (l : list (string * string)) : list (string * string) :=
  match l with
  | [] => []
  | (a, b) :: r =>
      if String.eqb a n
      then if seen then set_rest n v true r else (a, v) :: set_rest n v true r
      else (a, b) :: set_rest n v seen r
  end.

Definition params_set (n v : string) (l : list (string * string)) : list (string * string) :=
  if existsb (fun p => String.eqb (fst p) n) l then set_rest n v false l else l ++ [(n, v)].

(** [URLSearchParams.prototype.getAll]. *)
Definition params_get_all (n : string) (l : list (string * string)) : list string :=
  map snd (filter (fun p => String.eqb (fst p) n) l).

(** [new URLSearchParams(s)]: a leading [?] is dropped. *)
Definition search_params_of (s : string) : list (string * string) :=
  form_parse (match s with String "?"%char s' => s' | _ => s end).

(** [params.get(n)]: the first value, or [null]. *)
Definition params_get (n : string) (l : list (string * string)) : jsval :=
  match params_get_all n l with v :: _ => JStr v | [] => JNull end.

(* ================================================================= *)
(** ** URL records *)

(** A parsed URL: its scheme, the serialized text between [scheme:] and
    the query (authority and path), its query and its fragment. *)
Record URL : Type := mkURL {
  u_scheme : string;
  u_rest : string;
  u_query : option string;
  u_fragment : option string
}.

(** [url.href], [url.toString()]. *)
Definition href (u : URL) : string :=
  u_scheme u ++ ":" ++ u_rest u
  ++ (match u_query u with Some q => "?" ++ q | None => "" end)
  ++ (match u_fragment u with Some f => "#" ++ f | None => "" end).

Definition protocol (u : URL) : string := u_scheme u ++ ":".

(** [url.searchParams] *)
Definition url_params (u : URL) : list (string * string) :=
  form_parse (match u_query u with Some q => q | None => "" end).

(** [url.searchParams.set(n, v)] with the URLSearchParams update steps:
    the URL's query becomes the serialization, [null] when empty. *)
Definition url_set_param (n v : string) (u : URL) : URL :=
  let s := form_serialize (params_set n v (url_params u)) in
  mkURL (u_scheme u) (u_rest u) (if String.eqb s "" then None else Some s) (u_fragment u).

(* ================================================================= *)
(** ** The basic URL parser

    Written out: the input clean-up, the scheme state, where the query and
    the fragment start, their percent-encoding, and when the base URL's
    query is kept.  Left abstract as [hier]: the authority, host, path and
    opaque-path states and their serialization, which give the text
    between [scheme:] and the query (or fail).  [hier] receives the scheme,
    the input between the scheme's [:] (or the whole input, for a
    reference without a scheme) and the query, and the base URL when the
    parser consults it.  None of these states changes the scheme, the
    query or the fragment. *)

Definition is_alpha (c : ascii) : bool :=
  in_range "A"%char "Z"%char c || in_range "a"%char "z"%char c.

Fixpoint scheme_tail (s : string) : option (string * string) :=
  match s with
  | EmptyString => None
  | String c s' =>
      if Ascii.eqb c ":"%char then Some (EmptyString, s')
      else if is_alnum c || is_one_of "+-." c then
        match scheme_tail s' with
        | Some (a, b) => Some (String (ascii_lower c) a, b)
        | None => None
        end
      else None
  end.

(** Scheme start state and scheme state: an ASCII letter, then ASCII
    alphanumerics, [+], [-] or [.] up to a [:], lower-cased.  Anything else
    means the input has no scheme. *)
Definition scheme_scan (s : string) : option (string * string) :=
  match s with
  | String c s' =>
      if is_alpha c then
        match scheme_tail s' with
        | Some (a, b) => Some (String (ascii_lower c) a, b)
        | None => None
        end
      else None
  | EmptyString => None
  end.

Definition is_c0_or_space (c : ascii) : bool := (byte_of c <=? 32)%nat.

Fixpoint drop_c0_space (s : string) : string :=
  match s with
  | EmptyString => EmptyString
  | String c s' => if is_c0_or_space c then drop_c0_space s' else s
  end.

Fixpoint str_filter (f : ascii -> bool) (s : string) : string :=
  match s with
  | EmptyString => EmptyString
  | String c s' => if f c then String c (str_filter f s') else str_filter f s'
  end.

Definition is_tab_or_newline (c : ascii) : bool :=
  Ascii.eqb c "009"%char || Ascii.eqb c "010"%char || Ascii.eqb c "013"%char.

(** Leading and trailing C0 controls and spaces are stripped, then every
    tab and newline is removed. *)
Definition preprocess (s : string) : string :=
  str_filter (fun c => negb (is_tab_or_newline c))
    (rev_str (drop_c0_space (rev_str (drop_c0_space s)))).

Definition is_special (sch : string) : bool :=
  existsb (String.eqb sch) ["ftp"; "file"; "http"; "https"; "ws"; "wss"].

Definition has_opaque_path (b : URL) : bool :=
  match u_rest b with String "/"%char _ => false | _ => true end.

Definition encode_query (sch q : string) : string :=
  percent_encode (if is_special sch then special_query_set else query_set) q.

Definition encode_fragment (f : string) : string := percent_encode fragment_set f.

Section Browser.

Variable hier : string -> string -> option URL -> option string.

(** The basic URL parser on [input] with an optional base URL. *)
Definition url_parse (input : string) (base : option URL) : option URL :=
  let s := preprocess input in
  let '(pre, frag) := match split_first "#" s with
                      | Some (a, b) => (a, Some b)
                      | None => (s, None)
                      end in
  let '(head, query) := match split_first "?" pre with
                        | Some (a, b) => (a, Some b)
                        | None => (pre, None)
                        end in
  (* the parsed URL; [inherited] is the base's query, kept when the
     reference ends (or reaches its fragment) in the relative state *)
  let mk sch rest (inherited : option string) :=
    mkURL sch rest
      (match query with Some q => Some (encode_query sch q) | None => inherited end)
      (option_map encode_fragment frag) in
  match scheme_scan head with
  | Some (sch, body) =>
      let b := match base with
               | Some b => if is_special sch && String.eqb (u_scheme b) sch then Some b else None
               | None => None
               end in
      match hier sch body b with
      | Some rest =>
          Some (mk sch rest (match b with
                             | Some b => if String.eqb body "" then u_query b else None
                             | None => None
                             end))
      | None => None
      end
  | None =>
      match base with
      | None => None
      | Some b =>
          if has_opaque_path b then
            (* only a fragment-only reference resolves against an opaque path *)
            match s with
            | String "#"%char _ =>
                Some (mkURL (u_scheme b) (u_rest b) (u_query b) (option_map encode_fragment frag))
            | _ => None
            end
          else
            match hier (u_scheme b) head (Some b) with
            | Some rest => Some (mk (u_scheme b) rest
                                   (if String.eqb head "" then u_query b else None))
            | None => None
            end
      end
  end.

(** [new URL(url)] and [new URL(url, base)]: the base is parsed first;
    either failure throws a [TypeError]. *)
Definition new_URL (url : string) (base : option string) : res URL :=
  match base with
  | Some bs =>
      match url_parse bs None with
      | None => Exc (TypeError "Invalid base URL")
      | Some b =>
          match url_parse url (Some b) with
          | Some u => Ok u
          | None => Exc (TypeError "Invalid URL")
          end
      end
  | None =>
      match url_parse url None with
      | Some u => Ok u
      | None => Exc (TypeError "Invalid URL")
      end
  end.

(**
<<
  function sanitizeFinalUrl(url){
    try {
      const u = new URL(url, location.origin);
      if (!/^https?:$/i.test(u.protocol)) return '';
      return u.toString();
    } catch { return ''; }
  }
>> *)
Definition sanitizeFinalUrl (location_origin : string) (url : string) : string :=
  match new_URL url (Some location_origin) with
  | Ok u => if re_test true http_regex (protocol u) then href u else ""
  | Exc _ => ""
  end.

(** The entries of [String(paramStr).split('&').map(s => s.trim()).filter(Boolean)]. *)
Definition param_entries (s : string) : list string :=
  filter (fun p => negb (String.eqb p "")) (map trim (split_on "&" s)).

(** One loop iteration: [idx = p.indexOf('=')]; [idx <= 0] skips the entry. *)
Definition merge_entry (u : URL) (p : string) : URL :=
  match split_first "=" p with
  | Some (key, val) => if String.eqb key "" then u else url_set_param key val u
  | None => u
  end.

(**
<<
  function appendParamString(url, paramStr){
    if (!paramStr) return url;
    const u = new URL(url);
    const pairs = String(paramStr).split('&').map(s => s.trim()).filter(Boolean);
    for (const p of pairs) {
      const idx = p.indexOf('=');
      if (idx <= 0) continue;
      const key = p.slice(0, idx);
      const val = p.slice(idx+1);
      u.searchParams.set(key, val);
    }
    return u.toString();
  }
>> *)
Definition appendParamString (url : string) (paramStr : jsval) : res string :=
  if negb (truthy paramStr) then Ok url
  else
    u <- new_URL url None ;;
    ps <- to_string paramStr ;;
    Ok (href (fold_left merge_entry (param_entries ps) u)).

(* ================================================================= *)
(** ** Rendering

    The body of [render] is modelled by the DOM calls it makes, in order:
    the header, warnings, the card or the error panel it appends, and the
    loading overlay and navigation it schedules.  [render] then runs these
    calls against the page ([Dom]); the first one that throws ends the
    [try] block, and what has been done so far is what the page shows. *)

Inductive event : Type :=
  | EvHeader                                      (* ensureHeader *)
  | EvWarn (variant : string) (variants : jsval)  (* console.warn *)
  | EvError (html : string)                       (* renderError *)
  | EvCard (title desc url : string) (newtab : bool) (* renderCard *)
  | EvLoading (message : jsval) (url : string)    (* showLoading *)
  | EvNavigate (url : string)                     (* location.assign, after 300 ms *)
  | EvConsoleError.                               (* console.error in the last catch *)

(** Computations that append events and may throw. *)
Definition M (A : Type) : Type := (list event * res A)%type.

Definition ret {A} (a : A) : M A := ([], Ok a).
Definition lift {A} (r : res A) : M A := ([], r).
Definition emit (ev : event) : M unit := ([ev], Ok tt).
Definition bindM {A B} (m : M A) (f : A -> M B) : M B :=
  match m with
  | (w, Ok a) => let '(w', r) := f a in ((w ++ w')%list, r)
  | (w, Exc e) => (w, Exc e)
  end.

Notation "x <~ m ;; k" := (bindM m (fun x => k))
  (at level 61, m at next level, right associativity).

(** The normalized options of [normalizeOptions], in its order;
    [c_resolveItem] is [Some f] when [opts.resolveItem] is a function. *)
Record Conf : Type := mkConf {
  c_dataset : jsval;
  c_resolveItem : option (string -> jsval -> res jsval);
  c_target : jsval;
  c_readFlags : bool;
  c_header : jsval;
  c_headerTitle : jsval;
  c_headerSubject : jsval;
  c_loadingMessage : jsval
}.

Definition msg_missing_id : string :=
  "必須パラメータ <code>id</code> がありません。例: <code>?id=test</code>".
Definition msg_no_url : string :=
  "このIDには <code>url</code> が設定されていないため、開けません。".
Definition msg_bad_url : string :=
  "遷移先 URL が不正です。http(s) のみ許可されます。".

(** [str.replace(/{id}/g, rep)]; [rep] comes from [encodeURIComponent],
    so it holds no [$] pattern. *)
Fixpoint replace_id (rep s : string) : string :=
  match s with
  | String "{"%char (String "i"%char (String "d"%char (String "}"%char r))) =>
      rep ++ replace_id rep r
  | String c r => String c (replace_id rep r)
  | EmptyString => EmptyString
  end.

(** [a || b || ...] over [params.get] results, which are strings or null. *)
Definition as_string (v : jsval) : string :=
  match v with JStr s => s | _ => "" end.

(** [Array.prototype.some]: holes are skipped. *)
Fixpoint js_some (p : jsval -> res bool) (xs : list (option jsval)) : res bool :=
  match xs with
  | [] => Ok false
  | None :: r => js_some p r
  | Some x :: r => b <- p x ;; if b then Ok true else js_some p r
  end.

(** [v => v && String(v.variant) === variantRaw] *)
Definition variant_is (variantRaw : string) (v : jsval) : res bool :=
  if truthy v then x <- get_prop v "variant" ;; s <- to_string x ;; Ok (String.eqb s variantRaw)
  else Ok false.

(** The allow-list test of step 5. *)
Definition variant_allowed (vs : jsval) (variantRaw : string) : res bool :=
  match vs with
  | JArr xs => match xs with
               | [] => Ok true
               | _ :: _ => js_some (variant_is variantRaw) xs
               end
  | _ => Ok true
  end.

(** [findVariant(item, vName)]: [Array.prototype.find] visits holes as
    [undefined], which the predicate rejects.
<<
  function findVariant(item, vName){
    if (!item || !Array.isArray(item.variants)) return null;
    return item.variants.find(v => v && String(v.variant) === vName) || null;
  }
>> *)
Definition findVariant (item : jsval) (vName : string) : res jsval :=
  if negb (truthy item) then Ok JNull
  else
    vs <- get_prop item "variants" ;;
    match vs with
    | JArr xs =>
        found <- js_find (variant_is vName) (array_values xs) ;;
        Ok (match found with Some v => js_or v JNull | None => JNull end)
    | _ => Ok JNull
    end.

(** Step 5: the variant from [?variant=] or [?v=] is set as the [variant]
    query parameter; a value outside a non-empty [item.variants] only
    warns.  Returns the new [urlStr] and [variantLabel]. *)
Definition apply_variant (item : jsval) (urlStr variantRaw : string) : M (string * string) :=
  if String.eqb variantRaw "" then ret (urlStr, "")
  else
    vs <~ lift (get_prop item "variants") ;;
    allowed <~ lift (variant_allowed vs variantRaw) ;;
    _ <~ (if allowed then ret tt else emit (EvWarn variantRaw vs)) ;;
    u <~ lift (new_URL urlStr None) ;;
    ret (href (url_set_param "variant" variantRaw u), variantRaw).

(** The flag test [(params.get(k) || '0') === '1']. *)
Definition flag_on (params : list (string * string)) (k : string) : bool :=
  String.eqb (as_string (js_or (params_get k params) (JStr "0"))) "1".

(** Steps 3 to 9 of [render], from the resolved item on. *)
Definition render_item (location_origin : string) (conf : Conf)
    (params : list (string * string)) (item : jsval) : M unit :=
  (* 3) url *)
  urlRaw <~ lift (if truthy item then
                    u <- get_prop item "url" ;;
                    Ok (match u with JStr s => trim s | _ => "" end)
                  else Ok "") ;;
  if String.eqb urlRaw "" then emit (EvError msg_no_url)
  else
    (* 4) {id} *)
    iid <~ lift (get_prop item "id") ;;
    sid <~ lift (to_string iid) ;;
    let urlStr := replace_id (encodeURIComponent sid) urlRaw in
    (* 5) variant *)
    let variantRaw := trim (as_string (js_or (params_get "variant" params)
                                          (js_or (params_get "v" params) (JStr "")))) in
    r <~ apply_variant item urlStr variantRaw ;;
    let '(urlStr, variantLabel) := r in
    (* 6) *)
    let finalUrl := sanitizeFinalUrl location_origin urlStr in
    if String.eqb finalUrl "" then emit (EvError msg_bad_url)
    else
      (* 7) flags *)
      let newtab := c_readFlags conf && flag_on params "newtab" in
      let auto := c_readFlags conf && flag_on params "auto" in
      (* 8) card *)
      t <~ lift (get_prop item "title") ;;
      i <~ lift (get_prop item "id") ;;
      displayTitle <~ lift (add_string (js_or t i)
                             (if String.eqb variantLabel "" then ""
                              else "（" ++ variantLabel ++ "）")) ;;
      d <~ lift (get_prop item "description") ;;
      let desc := js_or d (JStr "") in
      descText <~ lift (if truthy desc then to_string desc else Ok "") ;;
      _ <~ emit (EvCard displayTitle descText finalUrl newtab) ;;
      (* 9) auto *)
      if auto then
        _ <~ emit (EvLoading (c_loadingMessage conf) finalUrl) ;;
        emit (EvNavigate finalUrl)
      else ret tt.

(** The body of the [try] block of [render]. *)
Definition render_body (location_search location_origin : string)
    (data globalThis_data : jsval) (conf : Conf) : M unit :=
  (* [if (conf.header !== false) ensureHeader(conf);] *)
  _ <~ match c_header conf with JBool false => ret tt | _ => emit EvHeader end ;;
  let params := search_params_of location_search in
  (* 1) id *)
  let id := sanitizeId (trim (as_string (js_or (params_get "id" params) (JStr "")))) in
  if String.eqb id "" then emit (EvError msg_missing_id)
  else
    (* 2) dataset -> item *)
    let dataset := resolveDataset data globalThis_data (c_dataset conf) in
    item <~ lift (match c_resolveItem conf with
                  | Some f => f id dataset
                  | None => it <- defaultResolveItem id dataset ;; Ok (item_to_js it)
                  end) ;;
    render_item location_origin conf params item.

Definition escapeHtml (s : string) : string :=
  let fix go (s : string) : string :=
    match s with
    | EmptyString => EmptyString
    | String c s' =>
        (if Ascii.eqb c "&"%char then "&amp;"
         else if Ascii.eqb c "<"%char then "&lt;"
         else if Ascii.eqb c ">"%char then "&gt;"
         else if Ascii.eqb c dquote then "&quot;"
         else if Ascii.eqb c "'"%char then "&#39;"
         else String c EmptyString) ++ go s'
    end in go s.

(** [String(e && e.message || e)] *)
Definition error_text (e : exn) : res string :=
  match e with
  | TypeError m => Ok (if String.eqb m "" then "TypeError" else m)
  | Thrown v =>
      let x := if truthy v
               then match get_prop v "message" with Ok m => js_or m v | Exc _ => v end
               else v in
      to_string x
  end.

(** The page [render] runs in, as far as a DOM call of it can throw:
    what [document.querySelector] does with a selector (it throws a
    [SyntaxError] [DOMException] on an invalid one, or finds an element or
    not), whether [document.body] exists, and whether a [.site-header]
    element and the loading overlay are already in the page. *)
Record Dom : Type := mkDom {
  query_selector : string -> res bool;
  has_body : bool;
  has_site_header : bool;
  has_loading : bool
}.

(** Reading a method of a missing [document.body]. *)
Definition null_body (prop : string) : exn :=
  TypeError ("Cannot read properties of null (reading '" ++ prop ++ "')").

(** Setting [textContent], a nullable [DOMString]: [null] clears the
    node, any other value goes through ToString. *)
Definition text_content (v : jsval) : res string :=
  match v with JNull => Ok "" | _ => to_string v end.

(** The root of [getRoot(conf.target)], and the same lookup in
    [renderError]: [document.querySelector(conf.target)] (the selector
    converted by ToString), else [document.body], to which the new node is
    appended.
<<
  function getRoot(target){
    let root = document.querySelector(target);
    if (!root) {
      const main = document.createElement('main');
      main.className = 'portal';
      document.body.appendChild(main);
      root = main;
    }
    return root;
  }
  function renderError(conf, html){
    const root = document.querySelector(conf.target) || document.body;
    ...
    root.appendChild(box);
  }
>> *)
Definition getRoot (dom : Dom) (conf : Conf) : res unit :=
  sel <- to_string (c_target conf) ;;
  found <- query_selector dom sel ;;
  if found || has_body dom then Ok tt else Exc (null_body "appendChild").

(** [ensureHeader(conf)]: nothing when the page has a [.site-header];
    otherwise [conf.headerTitle + ' '], [span.textContent =
    conf.headerSubject], and the insertion into [document.body]. *)
Definition ensureHeader (dom : Dom) (conf : Conf) : res unit :=
  if has_site_header dom then Ok tt
  else
    _ <- add_string (c_headerTitle conf) " " ;;
    _ <- text_content (c_headerSubject conf) ;;
    if has_body dom then Ok tt else Exc (null_body "insertBefore").

(** [showLoading(message, url)]: nothing when the overlay is there;
    otherwise [p.textContent = message || '読み込み中…'] and the
    insertion into [document.body]. *)
Definition showLoading (dom : Dom) (message : jsval) : res unit :=
  if has_loading dom then Ok tt
  else
    _ <- text_content (js_or message (JStr "読み込み中…")) ;;
    if has_body dom then Ok tt else Exc (null_body "appendChild").

(** What can throw in the DOM call an event stands for.  [renderCard]
    converts nothing but the root's selector: its title, description and
    URL are strings.  [console.warn], [console.error] and [setTimeout]
    do not throw. *)
Definition dom_call (dom : Dom) (conf : Conf) (ev : event) : res unit :=
  match ev with
  | EvHeader => ensureHeader dom conf
  | EvError _ | EvCard _ _ _ _ => getRoot dom conf
  | EvLoading m _ => showLoading dom m
  | EvWarn _ _ | EvNavigate _ | EvConsoleError => Ok tt
  end.

(** The calls that complete, up to the first that throws, and its
    exception. *)
Fixpoint run_calls (dom : Dom) (conf : Conf) (w : list event) : list event * option exn :=
  match w with
  | [] => ([], None)
  | ev :: w' =>
      match dom_call dom conf ev with
      | Ok _ => let '(d, f) := run_calls dom conf w' in (ev :: d, f)
      | Exc e => ([], Some e)
      end
  end.

(** The [catch] block of [Interlink.render(opts)]: the runtime-error panel,
    shown with [renderError(normalizeOptions(opts), ...)], which looks up
    the same target; when the message or that panel throws,
    [console.error(e)].
<<
      } catch (e) {
        try { renderError(normalizeOptions(opts), `実行時エラー: <code>${escapeHtml(String(e && e.message || e))}</code>`); }
        catch(_) { console.error(e); }
      }
>> *)
Definition render_catch (dom : Dom) (conf : Conf) (e : exn) : list event :=
  match error_text e with
  | Ok m =>
      let panel := EvError ("実行時エラー: <code>" ++ escapeHtml m ++ "</code>") in
      match dom_call dom conf panel with
      | Ok _ => [panel]
      | Exc _ => [EvConsoleError]
      end
  | Exc _ => [EvConsoleError]
  end.

(** [Interlink.render(opts)]: the calls of the [try] block up to the first
    that throws, then the [catch] block for that exception, or for the one
    the block itself throws. *)
Definition render (location_search location_origin : string)
    (data globalThis_data : jsval) (dom : Dom) (conf : Conf) : list event :=
  let '(w, r) := render_body location_search location_origin data globalThis_data conf in
  let '(d, f) := run_calls dom conf w in
  match f, r with
  | Some e, _ | None, Exc e => (d ++ render_catch dom conf e)%list
  | None, Ok _ => d
  end.

End Browser.

(** A stand-in for the authority and path states, used to evaluate the
    pipeline on concrete inputs: it accepts the text as it is when it holds
    no space, control character, [?] or [#]. *)
Definition url_clean_char (c : ascii) : bool :=
  negb (is_c0_or_space c || Ascii.eqb c "?"%char || Ascii.eqb c "#"%char).

Definition hier_plain (sch body : string) (base : option URL) : option string :=
  if str_forallb url_clean_char body then Some body else None.

(* ================================================================= *)
(** * Properties *)

(** Characters of [[A-Za-z0-9_-]]. *)
Definition is_id_char (c : ascii) : bool :=
  is_alnum c || Ascii.eqb c "_"%char || Ascii.eqb c "-"%char.

(** [s] matches [[A-Za-z0-9_-]+] as a whole. *)
Definition full_id_match (s : string) : bool :=
  negb (String.eqb s "") && str_forallb is_id_char s.

(** Characters that are not upper-case ASCII letters. *)
Definition lower_char (c : ascii) : bool := negb (in_range "A"%char "Z"%char c).

(** The text [form_encode] writes for one byte. *)
Definition form_tok (c : ascii) : string :=
  if Ascii.eqb c " "%char then "+"
  else if form_set c then pct c else String c EmptyString.

Definition scheme_char (c : ascii) : bool := is_alnum c || is_one_of "+-." c.

(** A scheme as the scheme state leaves it: a letter, then scheme
    characters, all lower case. *)
Definition valid_scheme (sch : string) : bool :=
  match sch with
  | String c r => is_alpha c && lower_char c && str_forallb (fun d => scheme_char d && lower_char d) r
  | EmptyString => false
  end.

(** A query with nothing left to percent-encode for its scheme. *)
Definition query_ok (sch q : string) : bool :=
  str_forallb (fun c => negb ((if is_special sch then special_query_set else query_set) c)) q.

Definition frag_ok (f : string) : bool := str_forallb (fun c => negb (fragment_set c)) f.

(** Bytes the serialized authority and path never hold: the authority
    and path states percent-encode the C0 controls (or reject them in a
    host), and [?] and [#] end the path. *)
Definition rest_char (c : ascii) : bool :=
  negb ((byte_of c <? 32)%nat || Ascii.eqb c "?"%char || Ascii.eqb c "#"%char).

(** [s] ends with a space.  An opaque path keeps the spaces of the input,
    but the input has no trailing space once [preprocess] has run, unless
    a [?] or [#] follows it. *)
Definition ends_space (s : string) : bool :=
  match rev_str s with String c _ => Ascii.eqb c " "%char | EmptyString => false end.

(** The last byte of [s], if any, is no control or space byte. *)
Definition last_ok (s : string) : bool :=
  match rev_str s with String c _ => negb (is_c0_or_space c) | EmptyString => true end.

(** The URLs the parser produces, given a [hier] whose output holds only
    [rest_char] bytes, ends with a space only when its input does, and
    parses back to itself. *)
Definition url_wf (hier : string -> string -> option URL -> option string) (u : URL) : Prop :=
  valid_scheme (u_scheme u) = true /\
  str_forallb rest_char (u_rest u) = true /\
  (ends_space (u_rest u) = true -> u_query u <> None \/ u_fragment u <> None) /\
  hier (u_scheme u) (u_rest u) None = Some (u_rest u) /\
  (forall q, u_query u = Some q -> query_ok (u_scheme u) q = true) /\
  (forall f, u_fragment u = Some f -> frag_ok f = true).

(** An entry of [appendParamString] split at its first [=], when its key
    is not empty. *)
Definition entry_kv (p : string) : option (string * string) :=
  match split_first "=" p with
  | Some (k, v) => if String.eqb k "" then None else Some (k, v)
  | None => None
  end.

(** The keys the entries set, in order. *)
Definition entry_keys (es : list string) : list string :=
  flat_map (fun p => match entry_kv p with Some (k, _) => [k] | None => [] end) es.

(** The value of the last entry that sets [k]. *)
Definition last_value (k : string) (es : list string) : option string :=
  fold_left (fun acc p => match entry_kv p with
                          | Some (k', v) => if String.eqb k' k then Some v else acc
                          | None => acc
                          end) es None.

(** The bytes [form_encode] writes: none a query would encode, no [&], no [=]. *)
Definition form_clean (d : ascii) : bool :=
  negb (special_query_set d) && negb (Ascii.eqb d "&"%char) && negb (Ascii.eqb d "="%char).

(** One [name=value] pair of [form_serialize]. *)
Definition pair_text (p : string * string) : string :=
  (form_encode (fst p) ++ "=" ++ form_encode (snd p))%string.

(** [merge_entry] on the parameter list. *)
Definition merge_list (l : list (string * string)) (p : string) : list (string * string) :=
  match entry_kv p with Some (k, v) => params_set k v l | None => l end.

(** A sample item for the examples below: an allow-list with one variant, and
    the same item with an empty list. *)
Definition demo_variants : jsval := JArr [Some (JObj [("variant", JStr "s1")])].
Definition demo_item : jsval :=
  JObj [("variants", demo_variants); ("id", JStr "py22a"); ("url", JStr "https://x.test/q?id={id}")].
Definition demo_item_open : jsval :=
  JObj [("variants", JArr []); ("id", JStr "py22a"); ("url", JStr "https://x.test/q?id={id}")].
(** The options [normalizeOptions] gives for [{dataset: ds}]. *)
Definition demo_conf_with (ds : jsval) : Conf :=
  mkConf ds None (JStr "main.portal") true (JBool true) (JStr "海城中学高等学校")
    (JStr "情報科") (JStr "読み込み中…").
Definition demo_conf : Conf := demo_conf_with JUndef.

(** What [normalizeOptions] returns when [opts] sets nothing. *)
Definition default_options : jsval :=
  JObj [("dataset", JUndef); ("resolveItem", JUndef); ("target", JStr "main.portal");
        ("readFlags", JBool true); ("header", JBool true);
        ("headerTitle", JStr "海城中学高等学校"); ("headerSubject", JStr "情報科");
        ("loadingMessage", JStr "読み込み中…")].

(** The text [escapeHtml] writes for one byte. *)
Definition html_tok (c : ascii) : string :=
  if Ascii.eqb c "&"%char then "&amp;"
  else if Ascii.eqb c "<"%char then "&lt;"
  else if Ascii.eqb c ">"%char then "&gt;"
  else if Ascii.eqb c dquote then "&quot;"
  else if Ascii.eqb c "'"%char then "&#39;"
  else String c EmptyString.

(** How an HTML parser reads back the five character references
    [escapeHtml] writes. *)
Fixpoint html_unescape (s : string) : string :=
  match s with
  | String "&" (String "a" (String "m" (String "p" (String ";" r)))) => String "&" (html_unescape r)
  | String "&" (String "l" (String "t" (String ";" r))) => String "<" (html_unescape r)
  | String "&" (String "g" (String "t" (String ";" r))) => String ">" (html_unescape r)
  | String "&" (String "q" (String "u" (String "o" (String "t" (String ";" r))))) =>
      String "034" (html_unescape r)
  | String "&" (String "#" (String "3" (String "9" (String ";" r)))) => String "'" (html_unescape r)
  | String c r => String c (html_unescape r)
  | EmptyString => EmptyString
  end%char.

(** The bytes [encodeURIComponent] writes: the unreserved ones and [%]. *)
Definition uri_component_char (c : ascii) : bool := is_alnum c || is_one_of "-_.!~*'()%" c.

Definition is_warn (e : event) : bool := match e with EvWarn _ _ => true | _ => false end.

(** A URL string that starts with [http:] or [https:]. *)
Definition http_prefixed (u : string) : bool := String.prefix "http:" u || String.prefix "https:" u.

(** The panel the last [catch] of [render] shows for an error message [m]. *)
Definition runtime_panel (m : string) : string := "実行時エラー: <code>" ++ escapeHtml m ++ "</code>".

(** The card, and with [auto] the loading overlay and the navigation, all
    for one http(s) URL. *)
Definition card_events (conf : Conf) (params : list (string * string)) (tail : list event) : Prop :=
  exists t d u, http_prefixed u = true /\
    let nt := c_readFlags conf && flag_on params "newtab" in
    if c_readFlags conf && flag_on params "auto"
    then tail = [EvCard t d u nt; EvLoading (c_loadingMessage conf) u; EvNavigate u]
    else tail = [EvCard t d u nt].

(** How steps 3 to 9 end when they do not throw. *)
Definition item_events (conf : Conf) (params : list (string * string)) (tail : list event) : Prop :=
  tail = [EvError msg_no_url] \/ tail = [EvError msg_bad_url] \/ card_events conf params tail.

(** How the body of [render] ends when it does not throw: the missing-id
    panel or an ending of steps 3 to 9. *)
Definition body_end (conf : Conf) (params : list (string * string)) (tail : list event) : Prop :=
  tail = [EvError msg_missing_id] \/ item_events conf params tail.

(** How the [catch] block ends: the runtime-error panel or the console. *)
Definition fault_end (fin : list event) : Prop :=
  (exists m, fin = [EvError (runtime_panel m)]) \/ fin = [EvConsoleError].

Definition is_card (e : event) : bool := match e with EvCard _ _ _ _ => true | _ => false end.

(** An error report: an error panel or [console.error]. *)
Definition is_fault (e : event) : bool :=
  match e with EvError _ | EvConsoleError => true | _ => false end.

Definition is_nav (e : event) : bool := match e with EvNavigate _ => true | _ => false end.

(** Neither an error report nor the navigation. *)
Definition quiet (e : event) : bool := negb (is_fault e) && negb (is_nav e).

(** How many events of [l] satisfy [p]. *)
Definition count (p : event -> bool) (l : list event) : nat := length (filter p l).

(** The header call the body of [render] makes first: none when
    [conf.header] is [false]. *)
Definition header_calls (conf : Conf) : list event :=
  match c_header conf with JBool false => [] | _ => [EvHeader] end.

Definition succeeds {A} (r : res A) : bool := match r with Ok _ => true | Exc _ => false end.

(** The header call, when it is made, does not throw. *)
Definition header_ok (dom : Dom) (conf : Conf) : bool :=
  match c_header conf with JBool false => true | _ => succeeds (ensureHeader dom conf) end.

(** The target lookup of [renderCard] and [renderError] does not throw. *)
Definition target_ok (dom : Dom) (conf : Conf) : bool := succeeds (getRoot dom conf).

(** [conf] with another dataset and resolver. *)
Definition conf_with_data (conf : Conf) (ds : jsval)
    (ri : option (string -> jsval -> res jsval)) : Conf :=
  mkConf ds ri (c_target conf) (c_readFlags conf) (c_header conf) (c_headerTitle conf)
    (c_headerSubject conf) (c_loadingMessage conf).

(** One step of [last_value]. *)
Definition value_step (k : string) (acc : option string) (p : string) : option string :=
  match entry_kv p with
  | Some (k', v) => if String.eqb k' k then Some v else acc
  | None => acc
  end.

(** Sample options and configurations for the examples below. *)
Definition demo_opts : jsval := JObj [("target", JStr ""); ("readFlags", JNum 0); ("header", JBool false)].
Definition demo_dataset (url : string) : jsval :=
  JArr [Some (JObj [("id", JStr "py22a"); ("url", JStr url)])].
Definition demo_nav_conf : Conf := demo_conf_with (demo_dataset "https://x.test/q").
Definition demo_bad_conf : Conf := demo_conf_with (demo_dataset "javascript:alert(1)").
(** A page with a body, no header or overlay yet, and every selector valid
    and found. *)
Definition demo_dom : Dom := mkDom (fun _ => Ok true) true false false.

(* ----------------------------------------------------------------- *)
(** ** The identifier regular expression *)

Lemma re_search_bol_late ci r s : re_search ci (ABol :: r) false s = false.
Proof. induction s; simpl; auto. Qed.

Lemma id_class_is_id_char c :
  class_has false [("A","Z"); ("a","z"); ("0","9"); ("_","_"); ("-","-")]%char c = is_id_char c.
Proof.
  destruct c as [[] [] [] [] [] [] [] []]; reflexivity.
Qed.

Lemma plus_try_id_end s :
  plus_try false [("A","Z"); ("a","z"); ("0","9"); ("_","_"); ("-","-")]%char
    (fun s' => re_match false [AEol] false s') s = full_id_match s.
Proof.
  induction s as [|c s IH]; [reflexivity|].
  cbn [plus_try]. rewrite IH, id_class_is_id_char.
  unfold full_id_match. destruct s; simpl;
    destruct (is_id_char c); simpl; rewrite ?orb_false_r, ?andb_true_r; reflexivity.
Qed.

Lemma re_test_id_regex s : re_test false id_regex s = full_id_match s.
Proof.
  unfold re_test, id_regex.
  destruct s as [|c s'].
  - reflexivity.
  - cbn [re_search]. rewrite re_search_bol_late, orb_false_r.
    cbn [re_match andb]. apply plus_try_id_end.
Qed.

(** C8: [sanitizeId] returns its argument when the whole string matches
    [[A-Za-z0-9_-]+] and the empty string for every other string (the
    empty string included); it is a total function, so it raises no
    exception. *)
Theorem sanitizeId_spec (s : string) :
  sanitizeId s = if full_id_match s then s else "".
Proof.
  unfold sanitizeId. rewrite re_test_id_regex. reflexivity.
Qed.

(* ----------------------------------------------------------------- *)
(** ** Dataset resolution *)

(** C1 (as the code behaves): when the producer function throws, the
    empty [catch] leaves [ds] bound to the function itself, which is
    truthy, so [resolveDataset] returns the unevaluated function, whatever
    the [data] and [globalThis.data] fallbacks hold. *)
Theorem resolveDataset_throwing_producer (src : string) (v data globalThis_data : jsval) :
  resolveDataset data globalThis_data (JFun src true v) = JFun src true v.
Proof. reflexivity. Qed.

(* ----------------------------------------------------------------- *)
(** ** The URL builder *)

Lemma get_prop_truthy v k : truthy v = true -> exists x, get_prop v k = Ok x.
Proof.
  destruct v; simpl; try discriminate; intros _; eauto;
    repeat match goal with
    | |- context [match ?e with _ => _ end] => destruct e
    end; eauto.
Qed.

(** C4: for an item whose [url] is empty or not a string, and whatever
    the query holds (a variant override included), the builder renders the
    "not openable" panel and stops: no card, no URL, no navigation. *)
Theorem render_item_not_openable hier location_origin conf params item :
  (forall v, get_prop item "url" = Ok v -> v = JStr "" \/ typeof v <> "string") ->
  render_item hier location_origin conf params item = ([EvError msg_no_url], Ok tt).
Proof.
  intros H. unfold render_item.
  destruct (truthy item) eqn:T.
  - destruct (get_prop_truthy item "url" T) as [u Hu]. rewrite Hu.
    assert (Hr : match u with JStr s => trim s | _ => "" end = "").
    { destruct (H u Hu) as [->|Hn]; [reflexivity|].
      destruct u; try reflexivity. exfalso. apply Hn. reflexivity. }
    rewrite Hr. reflexivity.
  - reflexivity.
Qed.

Lemma render_item_not_openable_witness :
  render_item hier_plain "https://portal.test" demo_conf
    (search_params_of "?id=q1&variant=s1") (JObj [("id", JStr "q1"); ("url", JStr "")])
  = ([EvError msg_no_url], Ok tt).
Proof.
  apply render_item_not_openable.
  intros v Hv. simpl in Hv. injection Hv as <-. left. reflexivity.
Defined.

(* ----------------------------------------------------------------- *)
(** ** Item resolution: totality *)

(** The records [defaultResolveItem] searches: array elements or
    [Object.values]. *)
Definition dataset_records (ds : jsval) : list jsval :=
  match ds with
  | JArr xs => array_values xs
  | JObj ps => object_values ps
  | _ => []
  end.

(** A variant entry whose [variant ?? name ?? ''] and
    [param ?? params ?? ''] are strings. *)
Definition variant_entry_ok (v : jsval) : Prop :=
  (forall a, prop_coalesce v "variant" "name" = Ok a -> exists s, a = JStr s) /\
  (forall a, prop_coalesce v "param" "params" = Ok a -> exists s, a = JStr s).

(** A record whose [description] is a string or falsy and whose object
    variant entries carry string fields. *)
Definition record_ok (x : jsval) : Prop :=
  (forall d, get_prop x "description" = Ok d -> truthy d = false \/ exists s, d = JStr s) /\
  (forall ys, get_prop x "variants" = Ok (JArr ys) ->
     forall v, In (Some v) ys -> truthy v = true -> typeof v = "object" -> variant_entry_ok v).

(** A normalized variant: both fields are trimmed strings. *)
Definition variant_strings (v : Variant) : Prop :=
  exists a b, v_variant v = JStr (trim a) /\ v_param v = JStr (trim b).

Lemma prop_coalesce_truthy v k1 k2 :
  truthy v = true -> exists a, prop_coalesce v k1 k2 = Ok a.
Proof.
  intros T. unfold prop_coalesce.
  destruct (get_prop_truthy v k1 T) as [a Ha]. rewrite Ha.
  destruct (nullish a); eauto.
  destruct (get_prop_truthy v k2 T) as [b Hb]. rewrite Hb. eauto.
Qed.

Lemma map_variants_ok ys :
  (forall v, In (Some v) ys -> truthy v = true -> typeof v = "object" -> variant_entry_ok v) ->
  exists vs, map_variants ys = Ok vs /\ Forall variant_strings vs.
Proof.
  induction ys as [|[v|] ys IH]; intros H; simpl.
  - eauto.
  - destruct IH as [vs [E F]]; [intros w Hw; apply H; right; exact Hw|].
    unfold normalize_variant.
    destruct (truthy v) eqn:T; [destruct (String.eqb (typeof v) "object") eqn:O|];
      simpl.
    + apply String.eqb_eq in O.
      destruct (H v (or_introl eq_refl) T O) as [H1 H2].
      destruct (prop_coalesce_truthy v "variant" "name" T) as [a Ha].
      destruct (prop_coalesce_truthy v "param" "params" T) as [b Hb].
      destruct (H1 a Ha) as [sa ->]. destruct (H2 b Hb) as [sb ->].
      rewrite Ha, Hb. simpl. rewrite E.
      eexists; split; [reflexivity|].
      constructor; [|exact F]. exists sa, sb. split; reflexivity.
    + rewrite E. eauto.
    + rewrite E. eauto.
  - apply IH. intros w Hw. apply H. right. exact Hw.
Qed.

Lemma normalizeItem_ok x id :
  truthy x = true -> record_ok x ->
  exists it, normalizeItem x id = Ok it /\
    (exists d, it_description it = JStr (trim d)) /\ Forall variant_strings (it_variants it).
Proof.
  intros T [Hd Hv]. unfold normalizeItem.
  destruct (get_prop_truthy x "id" T) as [xid E1]. rewrite E1.
  destruct (get_prop_truthy x "quizId" T) as [xq E2].
  destruct (get_prop_truthy x "title" T) as [xt E3].
  destruct (get_prop_truthy x "description" T) as [xd E4].
  destruct (get_prop_truthy x "url" T) as [xu E5].
  destruct (get_prop_truthy x "variants" T) as [xv E6].
  assert (Hnid : exists nid, (if truthy xid then Ok xid
                 else xq <- get_prop x "quizId" ;; Ok (js_or xq (JStr id))) = Ok nid).
  { destruct (truthy xid); [eauto|]. rewrite E2. eauto. }
  destruct Hnid as [nid Hnid]. rewrite Hnid, E3, E4.
  assert (Hd' : exists s, js_or xd (JStr "") = JStr s).
  { unfold js_or. destruct (Hd xd E4) as [F|[s ->]].
    - rewrite F. eauto.
    - destruct (truthy (JStr s)); eauto. }
  destruct Hd' as [s Hs]. rewrite Hs. simpl. rewrite E5, E6.
  destruct xv; try (eexists; split; [reflexivity|]; split; [exists s; reflexivity|constructor]).
  destruct (map_variants_ok xs (Hv xs E6)) as [vs [Ev Fv]]. rewrite Ev.
  eexists; split; [reflexivity|]. split; [exists s; reflexivity|exact Fv].
Qed.

Lemma assoc_lookup_in k ps v : assoc_lookup k ps = Some v -> In v (map snd ps).
Proof.
  induction ps as [|[k' w] ps IH]; simpl; [discriminate|].
  destruct (String.eqb k k'); [intros [= ->]; left; reflexivity|].
  intros H. right. apply IH. exact H.
Qed.

Lemma object_proto_get_ok k : record_ok (object_proto_get k).
Proof.
  unfold object_proto_get.
  destruct (String.eqb k "__proto__"); [|destruct (existsb (String.eqb k) object_proto_methods)];
    split; simpl; try (intros ? [= <-]; left; reflexivity); intros ? [=].
Qed.

Lemma js_find_some p xs x : js_find p xs = Ok (Some x) -> In x xs.
Proof.
  induction xs as [|y xs IH]; simpl; [discriminate|].
  destruct (p y) as [[]|]; [intros [= ->]; left; reflexivity| |discriminate].
  intros H. right. apply IH. exact H.
Qed.

Lemma js_find_matches_ok id xs :
  exists r, js_find (matches_id id) xs = Ok r.
Proof.
  induction xs as [|x xs [r IH]]; simpl; [eauto|].
  unfold matches_id.
  destruct (truthy x) eqn:T; [|eauto].
  destruct (get_prop_truthy x "id" T) as [a Ha]. rewrite Ha.
  destruct (strict_eq_str a id); [eauto|].
  destruct (get_prop_truthy x "quizId" T) as [b Hb]. rewrite Hb.
  destruct (strict_eq_str b id); eauto.
Qed.

Lemma fallback_item_ok id :
  (exists d, it_description (fallback_item id) = JStr (trim d)) /\
  Forall variant_strings (it_variants (fallback_item id)).
Proof. split; [exists ""; reflexivity|constructor]. Qed.

(** C9 (amended): the default resolver never throws and returns the
    five-field item, with a trimmed string [description] and variants
    whose [variant] and [param] are trimmed strings (non-object entries
    dropped), whenever every record of the dataset has a string (or falsy)
    [description] and string (or nullish) [variant]/[name] and
    [param]/[params] fields in its object variant entries.  Datasets that
    are not arrays or objects always give the fallback item. *)
Theorem defaultResolveItem_total (id : string) (ds : jsval) :
  (forall x, In x (dataset_records ds) -> truthy x = true -> record_ok x) ->
  exists it, defaultResolveItem id ds = Ok it /\
    (exists d, it_description it = JStr (trim d)) /\ Forall variant_strings (it_variants it).
Proof.
  intros H. unfold defaultResolveItem.
  destruct (truthy ds) eqn:T; simpl; [|eexists; split; [reflexivity|apply fallback_item_ok]].
  assert (Pick : forall xs, (forall x, In x xs -> truthy x = true -> record_ok x) ->
    exists it, (found <- js_find (matches_id id) xs ;;
                match found with
                | Some x => if truthy x then normalizeItem x id else Ok (fallback_item id)
                | None => Ok (fallback_item id)
                end) = Ok it /\
      (exists d, it_description it = JStr (trim d)) /\ Forall variant_strings (it_variants it)).
  { intros xs Hxs. destruct (js_find_matches_ok id xs) as [r E]. rewrite E.
    destruct r as [x|]; [|eexists; split; [reflexivity|apply fallback_item_ok]].
    destruct (truthy x) eqn:Tx; [|eexists; split; [reflexivity|apply fallback_item_ok]].
    apply normalizeItem_ok; [exact Tx|]. apply Hxs; [|exact Tx].
    apply (js_find_some _ _ _ E). }
  destruct ds; try (eexists; split; [reflexivity|apply fallback_item_ok]).
  - apply Pick. exact H.
  - simpl. destruct (assoc_lookup id ps) as [direct|] eqn:D.
    + destruct (truthy direct) eqn:Td; [|apply Pick; exact H].
      apply normalizeItem_ok; [exact Td|]. apply H; [|exact Td].
      apply (assoc_lookup_in id). exact D.
    + destruct (truthy (object_proto_get id)) eqn:Td; [|apply Pick; exact H].
      apply normalizeItem_ok; [exact Td|apply object_proto_get_ok].
Qed.

Lemma defaultResolveItem_total_witness :
  exists it, defaultResolveItem "q1"
    (JArr [Some (JObj [("id", JStr "q1"); ("description", JStr " quiz ");
                       ("variants", JArr [Some (JObj [("name", JStr " s1 ")]); Some (JNum 3%Z)])])])
    = Ok it /\ (exists d, it_description it = JStr (trim d)) /\
      Forall variant_strings (it_variants it).
Proof.
  apply defaultResolveItem_total.
  intros x [<-|[]] _. split.
  - intros d Hd. simpl in Hd. injection Hd as <-. right. eexists. reflexivity.
  - intros ys Hys v Hv Tv Ov. simpl in Hys. injection Hys as <-.
    destruct Hv as [[= <-]|[[= <-]|[]]]; [|discriminate Ov].
    split; intros a Ha; simpl in Ha; injection Ha as <-; eexists; reflexivity.
Defined.

(** C9 (as stated, refuted): a record whose [description] is the number
    5 makes [(x.description || '').trim()] throw a [TypeError]. *)
Lemma defaultResolveItem_throws_on_numeric_description :
  defaultResolveItem "a" (JArr [Some (JObj [("id", JStr "a"); ("description", JNum 5%Z)])])
  = Exc (TypeError "trim is not a function").
Proof. reflexivity. Qed.

(* ----------------------------------------------------------------- *)
(** ** Item resolution: the identifier of the resolved item *)

Lemma js_find_some_true p xs x :
  js_find p xs = Ok (Some x) -> In x xs /\ p x = Ok true.
Proof.
  induction xs as [|y xs IH]; simpl; [discriminate|].
  destruct (p y) as [[]|] eqn:E; [intros [= ->]; split; [left; reflexivity|exact E]| |discriminate].
  intros H. destruct (IH H) as [I P]. split; [right; exact I|exact P].
Qed.

Lemma normalizeItem_id x id it :
  normalizeItem x id = Ok it ->
  exists a, get_prop x "id" = Ok a /\
    ((truthy a = true /\ it_id it = a) \/
     (truthy a = false /\ exists b, get_prop x "quizId" = Ok b /\ it_id it = js_or b (JStr id))).
Proof.
  unfold normalizeItem.
  destruct (get_prop x "id") as [a|] eqn:Ea; [|discriminate].
  intros H. exists a. split; [reflexivity|].
  destruct (truthy a) eqn:Ta.
  - left. split; [reflexivity|].
    repeat match type of H with
    | context [match ?e with Ok _ => _ | Exc _ => _ end] => destruct e; [|discriminate]
    end.
    injection H as <-. reflexivity.
  - right. split; [reflexivity|].
    destruct (get_prop x "quizId") as [b|] eqn:Eb; [|discriminate].
    exists b. split; [reflexivity|].
    repeat match type of H with
    | context [match ?e with Ok _ => _ | Exc _ => _ end] => destruct e; [|discriminate]
    end.
    injection H as <-. reflexivity.
Qed.

Lemma strict_eq_str_true v s : strict_eq_str v s = true -> v = JStr s.
Proof. destruct v; simpl; try discriminate. intros E. apply String.eqb_eq in E. subst. reflexivity. Qed.

Lemma truthy_JStr s : s <> "" -> truthy (JStr s) = true.
Proof. intros H. simpl. destruct (String.eqb_spec s ""); [contradiction|reflexivity]. Qed.

(** The entry stored under key [id] does not carry another identifier. *)
Definition direct_keeps_id (id : string) (d : jsval) : Prop :=
  forall a b, get_prop d "id" = Ok a -> get_prop d "quizId" = Ok b ->
    strict_eq_str a id = true \/ (truthy a = false /\ (truthy b = false \/ strict_eq_str b id = true)).

(** A record matched by [id] or [quizId] has no other truthy [id]. *)
Definition match_keeps_id (id : string) (x : jsval) : Prop :=
  forall a, get_prop x "id" = Ok a -> strict_eq_str a id = true \/ truthy a = false.

Lemma normalize_matched_id id x it :
  id <> "" -> matches_id id x = Ok true -> match_keeps_id id x ->
  normalizeItem x id = Ok it -> it_id it = JStr id.
Proof.
  intros Hid M K N.
  destruct (normalizeItem_id x id it N) as [a [Ea [[Ta Ei]|[Ta [b [Eb Ei]]]]]].
  - rewrite Ei. destruct (K a Ea) as [S|F]; [apply strict_eq_str_true; exact S|congruence].
  - unfold matches_id in M. destruct (truthy x); [|discriminate].
    rewrite Ea in M. destruct (strict_eq_str a id) eqn:Sa.
    + apply strict_eq_str_true in Sa. subst a. rewrite truthy_JStr in Ta; [discriminate|exact Hid].
    + rewrite Eb in M. injection M as Sb. apply strict_eq_str_true in Sb. subst b.
      rewrite Ei. unfold js_or. rewrite truthy_JStr; [reflexivity|exact Hid].
Qed.

Lemma normalize_direct_id id d it :
  id <> "" -> truthy d = true -> direct_keeps_id id d ->
  normalizeItem d id = Ok it -> it_id it = JStr id.
Proof.
  intros Hid T K N.
  destruct (normalizeItem_id d id it N) as [a [Ea [[Ta Ei]|[Ta [b [Eb Ei]]]]]].
  - destruct (get_prop_truthy d "quizId" T) as [b Eb].
    destruct (K a b Ea Eb) as [S|[F _]]; [rewrite Ei; apply strict_eq_str_true; exact S|congruence].
  - rewrite Ei. destruct (K a b Ea Eb) as [S|[_ [F|S]]].
    + apply strict_eq_str_true in S. subst a. rewrite truthy_JStr in Ta; [discriminate|exact Hid].
    + unfold js_or. rewrite F. reflexivity.
    + apply strict_eq_str_true in S. subst b. unfold js_or. rewrite truthy_JStr; [reflexivity|exact Hid].
Qed.

Lemma pick_id id xs it :
  id <> "" -> (forall x, In x xs -> matches_id id x = Ok true -> match_keeps_id id x) ->
  (found <- js_find (matches_id id) xs ;;
   match found with
   | Some x => if truthy x then normalizeItem x id else Ok (fallback_item id)
   | None => Ok (fallback_item id)
   end) = Ok it -> it_id it = JStr id.
Proof.
  intros Hid K.
  destruct (js_find (matches_id id) xs) as [[x|]|] eqn:E; [|intros [= <-]; reflexivity|discriminate].
  destruct (js_find_some_true _ _ _ E) as [I M].
  destruct (truthy x); [|intros [= <-]; reflexivity].
  apply normalize_matched_id; auto.
Qed.

(** C2 (amended): for a valid (non-empty) identifier [id], whenever the
    default resolver returns an item its [id] is [id], provided no record
    matched through [id] or [quizId] carries a different truthy [id], and,
    for a keyed mapping, a truthy entry found under key [id] carries [id]
    itself, or a falsy [id] and a [quizId] that is falsy or [id]. *)
Theorem defaultResolveItem_id (id : string) (ds : jsval) (it : Item) :
  id <> "" ->
  (forall x, In x (dataset_records ds) -> matches_id id x = Ok true -> match_keeps_id id x) ->
  (match ds with
   | JObj _ => forall d, get_prop ds id = Ok d -> truthy d = true -> direct_keeps_id id d
   | _ => True
   end) ->
  defaultResolveItem id ds = Ok it -> it_id it = JStr id.
Proof.
  intros Hid K D. unfold defaultResolveItem.
  destruct (truthy ds); simpl; [|intros [= <-]; reflexivity].
  destruct ds; try (intros [= <-]; reflexivity).
  - apply pick_id; [exact Hid|exact K].
  - destruct (get_prop (JObj ps) id) as [d|] eqn:Ed; [|discriminate].
    destruct (truthy d) eqn:Td.
    + apply normalize_direct_id; auto.
    + apply pick_id; [exact Hid|exact K].
Qed.

Lemma defaultResolveItem_id_witness :
  defaultResolveItem "q1"
    (JObj [("a", JObj [("quizId", JStr "q1"); ("url", JStr "https://x.test/")]);
           ("b", JObj [("id", JStr "other")])])
  = Ok (mkItem (JStr "q1") (JStr "q1") (JStr "") "https://x.test/" []) /\
  it_id (mkItem (JStr "q1") (JStr "q1") (JStr "") "https://x.test/" []) = JStr "q1".
Proof.
  split; [reflexivity|].
  apply (defaultResolveItem_id "q1"
    (JObj [("a", JObj [("quizId", JStr "q1"); ("url", JStr "https://x.test/")]);
           ("b", JObj [("id", JStr "other")])])).
  - discriminate.
  - intros x Hx M a Ea. simpl in Hx.
    destruct Hx as [<-|[<-|[]]]; simpl in Ea; injection Ea as <-; [right; reflexivity|].
    simpl in M. discriminate M.
  - intros d Ed Td. simpl in Ed. injection Ed as <-. discriminate Td.
  - reflexivity.
Defined.

(** C2 (as stated, refuted): a record matched through [quizId] but
    carrying another non-empty [id] resolves to that other [id]. *)
Lemma defaultResolveItem_prefers_canonical_id :
  defaultResolveItem "abc" (JArr [Some (JObj [("id", JStr "other"); ("quizId", JStr "abc")])])
  = Ok (mkItem (JStr "other") (JStr "abc") (JStr "") "" []).
Proof. reflexivity. Qed.

(* ----------------------------------------------------------------- *)
(** ** URL sanitization *)

Lemma ascii_lower_lower c : lower_char (ascii_lower c) = true.
Proof. destruct c as [[] [] [] [] [] [] [] []]; reflexivity. Qed.

Lemma scheme_tail_lower s a b : scheme_tail s = Some (a, b) -> str_forallb lower_char a = true.
Proof.
  revert a b. induction s as [|c s IH]; intros a b; simpl; [discriminate|].
  destruct (Ascii.eqb c ":"%char); [intros [= <- _]; reflexivity|].
  destruct (is_alnum c || is_one_of "+-." c); [|discriminate].
  destruct (scheme_tail s) as [[a' b']|] eqn:E; [|discriminate].
  intros [= <- _]. simpl. rewrite ascii_lower_lower. apply (IH a' b'). reflexivity.
Qed.

Lemma scheme_scan_lower s a b : scheme_scan s = Some (a, b) -> str_forallb lower_char a = true.
Proof.
  destruct s as [|c s]; simpl; [discriminate|].
  destruct (is_alpha c); [|discriminate].
  destruct (scheme_tail s) as [[a' b']|] eqn:E; [|discriminate].
  intros [= <- _]. simpl. rewrite ascii_lower_lower. apply (scheme_tail_lower s a' b'). exact E.
Qed.

Ltac destruct_matches_in H :=
  repeat match type of H with
  | context [match ?e with _ => _ end] =>
      let E := fresh "E" in destruct e eqn:E
  end.

(** Every parsed URL has a lower-case scheme, taken from the input or the
    base. *)
Lemma url_parse_scheme hier s base u :
  url_parse hier s base = Some u ->
  (exists body, scheme_scan (match split_first "?"%char
                             (match split_first "#"%char (preprocess s) with
                              | Some (a, _) => a | None => preprocess s end) with
                             | Some (a, _) => a
                             | None => match split_first "#"%char (preprocess s) with
                                       | Some (a, _) => a | None => preprocess s end
                             end) = Some (u_scheme u, body)) \/
  (exists b, base = Some b /\ u_scheme u = u_scheme b).
Proof.
  unfold url_parse. intros H.
  destruct (split_first "#"%char (preprocess s)) as [[p f]|] eqn:E1;
  destruct (split_first "?"%char _) as [[h q]|] eqn:E2;
  destruct (scheme_scan _) as [[sch body]|] eqn:E3;
  destruct_matches_in H; try discriminate; injection H as <-; simpl;
  try (left; exists body; reflexivity); right; eexists; split; reflexivity.
Qed.

Lemma url_parse_lower hier s base u :
  url_parse hier s base = Some u ->
  (forall b, base = Some b -> str_forallb lower_char (u_scheme b) = true) ->
  str_forallb lower_char (u_scheme u) = true.
Proof.
  intros H B. destruct (url_parse_scheme hier s base u H) as [[body E]|[b [Eb Es]]].
  - apply (scheme_scan_lower _ _ _ E).
  - rewrite Es. apply B. exact Eb.
Qed.

Lemma new_URL_lower hier s o u :
  new_URL hier s o = Ok u -> str_forallb lower_char (u_scheme u) = true.
Proof.
  unfold new_URL. destruct o as [bs|].
  - destruct (url_parse hier bs None) as [b|] eqn:Eb; [|discriminate].
    destruct (url_parse hier s (Some b)) as [u'|] eqn:Eu; [|discriminate].
    intros [= <-]. apply (url_parse_lower hier s (Some b)); [exact Eu|].
    intros b' [= <-]. apply (url_parse_lower hier bs None); [exact Eb|discriminate].
  - destruct (url_parse hier s None) as [u'|] eqn:Eu; [|discriminate].
    intros [= <-]. apply (url_parse_lower hier s None); [exact Eu|discriminate].
Qed.

Lemma class_ci_lower (d c : ascii) :
  In d ["h"; "t"; "p"; "s"; ":"]%char -> lower_char c = true ->
  class_has true (chr d) c = true -> c = d.
Proof.
  intros Hd. destruct c as [[] [] [] [] [] [] [] []];
    destruct Hd as [<-|[<-|[<-|[<-|[<-|[]]]]]];
    intros L H; try discriminate L; try discriminate H; reflexivity.
Qed.

Lemma class_step (d c : ascii) s r :
  In d ["h"; "t"; "p"; "s"; ":"]%char -> lower_char c = true ->
  re_match true (AClass (chr d) :: r) false (String c s) = true ->
  c = d /\ re_match true r false s = true.
Proof.
  intros Hd L H. cbn [re_match] in H. apply andb_prop in H as [H1 H2].
  split; [apply (class_ci_lower d c Hd L H1)|exact H2].
Qed.

Lemma http_regex_tail s :
  str_forallb lower_char s = true ->
  re_match true [AOpt (chr "s"); AClass (chr ":"); AEol]%char false s = true ->
  s = "s:" \/ s = ":".
Proof.
  intros L H. cbn [re_match] in H. apply orb_prop in H as [H|H].
  - destruct s as [|c s]; [discriminate|]. simpl in L. apply andb_prop in L as [Lc L].
    apply andb_prop in H as [H1 H2].
    apply class_ci_lower in H1; [subst c|simpl; tauto|exact Lc].
    destruct s as [|c s]; [discriminate|]. simpl in L. apply andb_prop in L as [Lc' _].
    apply andb_prop in H2 as [H2 H3].
    apply class_ci_lower in H2; [subst c|simpl; tauto|exact Lc'].
    destruct s; [left; reflexivity|discriminate].
  - destruct s as [|c s]; [discriminate|]. simpl in L. apply andb_prop in L as [Lc _].
    apply andb_prop in H as [H1 H2].
    apply class_ci_lower in H1; [subst c|simpl; tauto|exact Lc].
    destruct s; [right; reflexivity|discriminate].
Qed.

Lemma http_regex_lower_string p :
  str_forallb lower_char p = true -> re_test true http_regex p = true ->
  p = "http:" \/ p = "https:".
Proof.
  intros L H. unfold re_test in H.
  assert (H' : re_match true http_regex true p = true).
  { destruct p as [|c p']; simpl in H; [exact H|].
    unfold http_regex in H. rewrite re_search_bol_late, orb_false_r in H. exact H. }
  clear H. unfold http_regex in H'.
  destruct p as [|c1 [|c2 [|c3 [|c4 p]]]]; cbn [re_match andb] in H';
    try (rewrite ?andb_false_r in H'; discriminate H').
  simpl in L. repeat (apply andb_prop in L as [? L]).
  repeat match goal with
  | H : class_has _ _ _ && _ = true |- _ => apply andb_prop in H as [? ?]
  end.
  repeat match goal with
  | H : class_has true (chr ?d) ?c = true |- _ =>
      apply class_ci_lower in H; [subst c|simpl; tauto|assumption]
  end.
  destruct (http_regex_tail p L) as [->| ->]; [assumption|right|left]; reflexivity.
Qed.

Lemma str_forallb_app f s t :
  str_forallb f (s ++ t) = str_forallb f s && str_forallb f t.
Proof. induction s as [|c s IH]; simpl; [reflexivity|]. rewrite IH. apply andb_assoc. Qed.

(** C3: [sanitizeFinalUrl] returns the empty string unless its input,
    resolved against the page origin, parses to a URL whose protocol is
    [http:] or [https:], and then it returns that URL's serialization; in
    particular [javascript:alert(1)] gives the empty string, a parse
    failure (of the input or of the origin) gives the empty string, and an
    input that parses to an [https:] URL gives its normalized form. *)
Theorem sanitizeFinalUrl_http_only hier location_origin :
  (forall s, sanitizeFinalUrl hier location_origin s <> "" ->
     exists u, new_URL hier s (Some location_origin) = Ok u /\
       (protocol u = "http:" \/ protocol u = "https:") /\
       sanitizeFinalUrl hier location_origin s = href u) /\
  sanitizeFinalUrl hier location_origin "javascript:alert(1)" = "" /\
  (forall s e, new_URL hier s (Some location_origin) = Exc e ->
     sanitizeFinalUrl hier location_origin s = "") /\
  (forall s u, new_URL hier s (Some location_origin) = Ok u -> u_scheme u = "https" ->
     sanitizeFinalUrl hier location_origin s = href u).
Proof.
  split; [|split; [|split]].
  - intros s H. unfold sanitizeFinalUrl in *.
    destruct (new_URL hier s (Some location_origin)) as [u|e] eqn:E; [|contradiction].
    destruct (re_test true http_regex (protocol u)) eqn:R; [|contradiction].
    exists u. split; [reflexivity|]. split; [|reflexivity].
    apply http_regex_lower_string; [|exact R].
    unfold protocol. rewrite str_forallb_app, (new_URL_lower hier s _ u E). reflexivity.
  - unfold sanitizeFinalUrl, new_URL.
    destruct (url_parse hier location_origin None); [|reflexivity].
    vm_compute.
    destruct (hier "javascript" "alert(1)" None); reflexivity.
  - intros s e E. unfold sanitizeFinalUrl. rewrite E. reflexivity.
  - intros s u E Hs. unfold sanitizeFinalUrl. rewrite E. unfold protocol. rewrite Hs. reflexivity.
Qed.

Lemma sanitizeFinalUrl_http_only_witness :
  sanitizeFinalUrl hier_plain "https://portal.test" "https://ok.test" = "https://ok.test" /\
  sanitizeFinalUrl hier_plain "https://portal.test" "javascript:alert(1)" = "".
Proof.
  destruct (sanitizeFinalUrl_http_only hier_plain "https://portal.test") as [_ [J [_ H]]].
  split; [|exact J].
  apply (H "https://ok.test" (mkURL "https" "//ok.test" None None)); reflexivity.
Defined.

(* ----------------------------------------------------------------- *)
(** ** Serializing and parsing back *)

Ltac bytes c := destruct c as [[|] [|] [|] [|] [|] [|] [|] [|]].

Lemma str_app_nil_r s : (s ++ "")%string = s.
Proof. induction s as [|c s IH]; simpl; [reflexivity|]. rewrite IH. reflexivity. Qed.

Lemma str_app_assoc a b c : ((a ++ b) ++ c)%string = (a ++ b ++ c)%string.
Proof. induction a as [|x a IH]; simpl; [reflexivity|]. rewrite IH. reflexivity. Qed.

Lemma str_forallb_impl (f g : ascii -> bool) s :
  (forall c, f c = true -> g c = true) -> str_forallb f s = true -> str_forallb g s = true.
Proof.
  intros Hfg. induction s as [|c s IH]; simpl; [reflexivity|].
  intros H. apply andb_prop in H as [H1 H2]. rewrite (Hfg c H1), (IH H2). reflexivity.
Qed.

Lemma split_first_none d a :
  str_forallb (fun c => negb (Ascii.eqb c d)) a = true -> split_first d a = None.
Proof.
  induction a as [|c a IH]; simpl; [reflexivity|].
  intros H. apply andb_prop in H as [H1 H2]. apply negb_true_iff in H1.
  rewrite H1, (IH H2). reflexivity.
Qed.

Lemma split_first_app d a b :
  str_forallb (fun c => negb (Ascii.eqb c d)) a = true ->
  split_first d (a ++ String d b) = Some (a, b).
Proof.
  induction a as [|c a IH]; simpl.
  - intros _. rewrite Ascii.eqb_refl. reflexivity.
  - intros H. apply andb_prop in H as [H1 H2]. apply negb_true_iff in H1.
    rewrite H1, (IH H2). reflexivity.
Qed.

Lemma split_on_one d a :
  str_forallb (fun c => negb (Ascii.eqb c d)) a = true -> split_on d a = [a].
Proof.
  induction a as [|c a IH]; simpl; [reflexivity|].
  intros H. apply andb_prop in H as [H1 H2]. apply negb_true_iff in H1.
  rewrite H1, (IH H2). reflexivity.
Qed.

Lemma split_on_app d a b :
  str_forallb (fun c => negb (Ascii.eqb c d)) a = true ->
  split_on d (a ++ String d b) = a :: split_on d b.
Proof.
  induction a as [|c a IH]; simpl.
  - intros _. rewrite Ascii.eqb_refl. reflexivity.
  - intros H. apply andb_prop in H as [H1 H2]. apply negb_true_iff in H1.
    rewrite H1, (IH H2). reflexivity.
Qed.

Lemma percent_encode_id (f : ascii -> bool) s :
  str_forallb (fun c => negb (f c)) s = true -> percent_encode f s = s.
Proof.
  induction s as [|c s IH]; simpl; [reflexivity|].
  intros H. apply andb_prop in H as [H1 H2]. apply negb_true_iff in H1.
  rewrite H1, (IH H2). reflexivity.
Qed.

Lemma percent_encode_clean (f : ascii -> bool) s :
  (forall c, str_forallb (fun d => negb (f d)) (pct c) = true) ->
  str_forallb (fun c => negb (f c)) (percent_encode f s) = true.
Proof.
  intros Hp. induction s as [|c s IH]; simpl; [reflexivity|].
  rewrite str_forallb_app, IH, andb_true_r.
  destruct (f c) eqn:E; [apply Hp|]. simpl. rewrite E. reflexivity.
Qed.

(** Byte-by-byte facts, checked on all 256 bytes. *)

Lemma pct_special_query_clean c :
  str_forallb (fun d => negb (special_query_set d)) (pct c) = true.
Proof. bytes c; reflexivity. Qed.

Lemma pct_query_clean c : str_forallb (fun d => negb (query_set d)) (pct c) = true.
Proof. bytes c; reflexivity. Qed.

Lemma pct_fragment_clean c : str_forallb (fun d => negb (fragment_set d)) (pct c) = true.
Proof. bytes c; reflexivity. Qed.

Lemma special_query_query c : negb (special_query_set c) = true -> negb (query_set c) = true.
Proof. unfold special_query_set. destruct (query_set c); simpl; auto. Qed.

Lemma query_char_clean c :
  negb (query_set c) = true -> negb (is_c0_or_space c) && negb (Ascii.eqb c "#"%char) = true.
Proof. bytes c; vm_compute; intros H; first [reflexivity | discriminate H]. Qed.

Lemma fragment_char_clean c : negb (fragment_set c) = true -> negb (is_c0_or_space c) = true.
Proof. bytes c; vm_compute; intros H; first [reflexivity | discriminate H]. Qed.

Lemma scheme_char_clean c :
  scheme_char c = true -> url_clean_char c && negb (Ascii.eqb c ":"%char) = true.
Proof. bytes c; vm_compute; intros H; first [reflexivity | discriminate H]. Qed.

Lemma alpha_char_clean c : is_alpha c = true -> scheme_char c = true.
Proof. bytes c; vm_compute; intros H; first [reflexivity | discriminate H]. Qed.

Lemma scheme_char_lower c :
  scheme_char c = true -> scheme_char (ascii_lower c) && lower_char (ascii_lower c) = true.
Proof. bytes c; vm_compute; intros H; first [reflexivity | discriminate H]. Qed.

Lemma alpha_char_lower c : is_alpha c = true -> is_alpha (ascii_lower c) = true.
Proof. bytes c; vm_compute; intros H; first [reflexivity | discriminate H]. Qed.

Lemma lower_char_fixed c : lower_char c = true -> ascii_lower c = c.
Proof. bytes c; vm_compute; intros H; first [reflexivity | discriminate H]. Qed.

Lemma tab_newline_c0 c : is_tab_or_newline c = true -> is_c0_or_space c = true.
Proof. bytes c; vm_compute; intros H; first [reflexivity | discriminate H]. Qed.

Lemma form_tok_clean c :
  str_forallb (fun d => negb (special_query_set d) && negb (Ascii.eqb d "&"%char)
                        && negb (Ascii.eqb d "="%char)) (form_tok c) = true.
Proof. bytes c; reflexivity. Qed.

Lemma form_tok_decode c t :
  percent_decode (plus_to_space (form_tok c ++ t)) = String c (percent_decode (plus_to_space t)).
Proof. bytes c; reflexivity. Qed.

Lemma form_encode_cons c s : form_encode (String c s) = (form_tok c ++ form_encode s)%string.
Proof. reflexivity. Qed.

Lemma form_decode_encode_app s t :
  percent_decode (plus_to_space (form_encode s ++ t)) = (s ++ percent_decode (plus_to_space t))%string.
Proof.
  induction s as [|c s IH]; [reflexivity|].
  rewrite form_encode_cons, str_app_assoc, form_tok_decode, IH. reflexivity.
Qed.

Lemma form_decode_encode s : form_decode (form_encode s) = s.
Proof.
  unfold form_decode. rewrite <- (str_app_nil_r (form_encode s)).
  rewrite form_decode_encode_app. apply str_app_nil_r.
Qed.


Lemma form_encode_clean s : str_forallb form_clean (form_encode s) = true.
Proof.
  induction s as [|c s IH]; [reflexivity|].
  rewrite form_encode_cons, str_forallb_app, IH, andb_true_r. apply form_tok_clean.
Qed.

Lemma form_encode_no d s :
  (forall c, form_clean c = true -> negb (Ascii.eqb c d) = true) ->
  str_forallb (fun c => negb (Ascii.eqb c d)) (form_encode s) = true.
Proof. intros H. apply (str_forallb_impl form_clean); [exact H | apply form_encode_clean]. Qed.

Lemma form_clean_no_amp c : form_clean c = true -> negb (Ascii.eqb c "&"%char) = true.
Proof. unfold form_clean. intros H. apply andb_prop in H as [H _]. apply andb_prop in H as [_ H]. exact H. Qed.

Lemma form_clean_no_eq c : form_clean c = true -> negb (Ascii.eqb c "="%char) = true.
Proof. unfold form_clean. intros H. apply andb_prop in H as [_ H]. exact H. Qed.


Lemma pair_text_clean p : str_forallb (fun c => negb (Ascii.eqb c "&"%char)) (pair_text p) = true.
Proof.
  unfold pair_text. rewrite str_forallb_app, form_encode_no by apply form_clean_no_amp. simpl.
  apply form_encode_no, form_clean_no_amp.
Qed.

Lemma split_on_join xs :
  xs <> [] -> Forall (fun x => str_forallb (fun c => negb (Ascii.eqb c "&"%char)) x = true) xs ->
  split_on "&" (join_amp xs) = xs.
Proof.
  induction xs as [|x [|y r] IH]; intros Hne Hall; [congruence| |].
  - inversion Hall; subst. simpl. apply split_on_one. assumption.
  - inversion Hall; subst. change (join_amp (x :: y :: r)) with (x ++ String "&" (join_amp (y :: r)))%string.
    rewrite split_on_app by assumption.
    rewrite IH; [reflexivity | discriminate | assumption].
Qed.

Lemma form_parse_serialize l : form_parse (form_serialize l) = l.
Proof.
  destruct l as [|p0 l0]; [reflexivity|].
  unfold form_parse, form_serialize.
  change (fun p : string * string => (form_encode (fst p) ++ "=" ++ form_encode (snd p))%string)
    with pair_text.
  rewrite split_on_join.
  - generalize (p0 :: l0). clear. induction l as [|[k v] l IH]; [reflexivity|].
    simpl flat_map. unfold pair_text at 1 2. simpl fst; simpl snd.
    replace (String.eqb (form_encode k ++ "=" ++ form_encode v) "") with false
      by (destruct (form_encode k); reflexivity).
    change ("=" ++ form_encode v)%string with (String "=" (form_encode v)).
    rewrite split_first_app by (apply form_encode_no; apply form_clean_no_eq).
    rewrite !form_decode_encode, IH. reflexivity.
  - discriminate.
  - apply Forall_forall. intros x Hx. apply in_map_iff in Hx as [p [<- _]]. apply pair_text_clean.
Qed.

Lemma url_params_set n v u : url_params (url_set_param n v u) = params_set n v (url_params u).
Proof.
  unfold url_params at 1, url_set_param. simpl.
  destruct (String.eqb _ "") eqn:E.
  - apply String.eqb_eq in E. rewrite <- E. apply form_parse_serialize.
  - apply form_parse_serialize.
Qed.

Lemma rev_str_app a b : rev_str (a ++ b) = (rev_str b ++ rev_str a)%string.
Proof.
  induction a as [|c a IH]; simpl.
  - rewrite str_app_nil_r. reflexivity.
  - rewrite IH, str_app_assoc. reflexivity.
Qed.

Lemma rev_str_rev s : rev_str (rev_str s) = s.
Proof. induction s as [|c s IH]; simpl; [reflexivity|]. rewrite rev_str_app, IH. reflexivity. Qed.

Lemma str_forallb_rev f s : str_forallb f (rev_str s) = str_forallb f s.
Proof.
  induction s as [|c s IH]; simpl; [reflexivity|].
  rewrite str_forallb_app, IH. simpl. rewrite andb_true_r. apply andb_comm.
Qed.

Lemma drop_c0_space_id s :
  str_forallb (fun c => negb (is_c0_or_space c)) s = true -> drop_c0_space s = s.
Proof.
  destruct s as [|c s]; simpl; [reflexivity|].
  intros H. apply andb_prop in H as [H _]. apply negb_true_iff in H. rewrite H. reflexivity.
Qed.

Lemma str_filter_id f s : str_forallb f s = true -> str_filter f s = s.
Proof.
  induction s as [|c s IH]; simpl; [reflexivity|].
  intros H. apply andb_prop in H as [H1 H2]. rewrite H1, (IH H2). reflexivity.
Qed.

(** An input with no control or space byte is left as it is. *)
Lemma preprocess_id s :
  str_forallb (fun c => negb (is_c0_or_space c)) s = true -> preprocess s = s.
Proof.
  intros H. unfold preprocess.
  rewrite (drop_c0_space_id s H), drop_c0_space_id, rev_str_rev.
  - apply str_filter_id. revert H. apply str_forallb_impl. intros c Hc.
    destruct (is_tab_or_newline c) eqn:E; [|reflexivity].
    rewrite (tab_newline_c0 c E) in Hc. discriminate Hc.
  - rewrite str_forallb_rev. exact H.
Qed.

Lemma url_clean_parts c :
  url_clean_char c = true ->
  negb (is_c0_or_space c) && negb (Ascii.eqb c "?"%char) && negb (Ascii.eqb c "#"%char) = true.
Proof. bytes c; vm_compute; intros H; first [reflexivity | discriminate H]. Qed.

Lemma query_ok_parts sch c :
  negb ((if is_special sch then special_query_set else query_set) c) = true ->
  negb (is_c0_or_space c) && negb (Ascii.eqb c "#"%char) = true.
Proof.
  destruct (is_special sch); intros H; apply query_char_clean; [apply special_query_query|]; exact H.
Qed.

Lemma valid_scheme_clean sch : valid_scheme sch = true -> str_forallb url_clean_char sch = true.
Proof.
  destruct sch as [|c r]; simpl; [discriminate|]. intros H.
  apply andb_prop in H as [H Hr]. apply andb_prop in H as [Ha _].
  pose proof (scheme_char_clean c (alpha_char_clean c Ha)) as Hc.
  apply andb_prop in Hc as [Hc _]. rewrite Hc. simpl.
  revert Hr. apply str_forallb_impl. intros d Hd. apply andb_prop in Hd as [Hd _].
  apply scheme_char_clean in Hd. apply andb_prop in Hd as [Hd _]. exact Hd.
Qed.

Lemma scheme_tail_valid a X :
  str_forallb (fun d => scheme_char d && lower_char d) a = true ->
  scheme_tail (a ++ String ":" X) = Some (a, X).
Proof.
  induction a as [|c a IH]; simpl; [reflexivity|].
  intros H. apply andb_prop in H as [Hc Ha]. apply andb_prop in Hc as [Hs Hl].
  pose proof (scheme_char_clean c Hs) as Hn. apply andb_prop in Hn as [_ Hn].
  apply negb_true_iff in Hn. rewrite Hn. unfold scheme_char in Hs. rewrite Hs, (IH Ha).
  rewrite (lower_char_fixed c Hl). reflexivity.
Qed.

Lemma scheme_scan_valid sch X :
  valid_scheme sch = true -> scheme_scan (sch ++ String ":" X) = Some (sch, X).
Proof.
  destruct sch as [|c r]; simpl; [discriminate|]. intros H.
  apply andb_prop in H as [H Hr]. apply andb_prop in H as [Ha Hl].
  rewrite Ha, (scheme_tail_valid r X Hr), (lower_char_fixed c Hl). reflexivity.
Qed.

Lemma scheme_tail_out s a b :
  scheme_tail s = Some (a, b) -> str_forallb (fun d => scheme_char d && lower_char d) a = true.
Proof.
  revert a b. induction s as [|c s IH]; simpl; intros a b H; [discriminate|].
  destruct (Ascii.eqb c ":"%char); [injection H as <- _; reflexivity|].
  destruct (is_alnum c || is_one_of "+-." c) eqn:Ec; [|discriminate].
  destruct (scheme_tail s) as [[a' b']|] eqn:Et; [|discriminate].
  injection H as <- _. simpl. rewrite (scheme_char_lower c Ec), (IH a' b' eq_refl). reflexivity.
Qed.

Lemma scheme_scan_out s sch body : scheme_scan s = Some (sch, body) -> valid_scheme sch = true.
Proof.
  destruct s as [|c s]; simpl; [discriminate|].
  destruct (is_alpha c) eqn:Ea; [|discriminate].
  destruct (scheme_tail s) as [[a b]|] eqn:Et; [|discriminate].
  intros H. injection H as <- _. simpl.
  rewrite (alpha_char_lower c Ea), ascii_lower_lower, (scheme_tail_out s a b Et). reflexivity.
Qed.

Lemma encode_query_ok sch x : query_ok sch (encode_query sch x) = true.
Proof.
  unfold query_ok, encode_query. destruct (is_special sch); apply percent_encode_clean.
  - apply pct_special_query_clean.
  - apply pct_query_clean.
Qed.

Lemma encode_fragment_ok x : frag_ok (encode_fragment x) = true.
Proof. apply percent_encode_clean, pct_fragment_clean. Qed.

Lemma split_first_mid d a b :
  str_forallb (fun c => negb (Ascii.eqb c d)) a = true ->
  split_first d (a ++ b) = match split_first d b with Some (x, y) => Some ((a ++ x)%string, y) | None => None end.
Proof.
  induction a as [|c a IH]; simpl.
  - intros _. destruct (split_first d b) as [[x y]|]; reflexivity.
  - intros H. apply andb_prop in H as [H1 H2]. apply negb_true_iff in H1.
    rewrite H1, (IH H2). destruct (split_first d b) as [[x y]|]; reflexivity.
Qed.

Lemma join_amp_forallb (g : ascii -> bool) xs :
  g "&"%char = true -> Forall (fun x => str_forallb g x = true) xs -> str_forallb g (join_amp xs) = true.
Proof.
  intros Ha. induction xs as [|x [|y r] IH]; intros Hall; [reflexivity| |].
  - inversion Hall; subst. simpl. assumption.
  - inversion Hall; subst. change (join_amp (x :: y :: r)) with (x ++ String "&" (join_amp (y :: r)))%string.
    rewrite str_forallb_app. simpl. rewrite H1, Ha. apply IH. assumption.
Qed.

Lemma form_serialize_query_ok sch l : query_ok sch (form_serialize l) = true.
Proof.
  assert (S : str_forallb (fun c => negb (special_query_set c)) (form_serialize l) = true).
  { apply join_amp_forallb; [reflexivity|].
    apply Forall_forall. intros x Hx. apply in_map_iff in Hx as [p [<- _]].
    rewrite str_forallb_app. simpl.
    assert (F : forall s, str_forallb (fun c => negb (special_query_set c)) (form_encode s) = true).
    { intros s. apply (str_forallb_impl form_clean); [|apply form_encode_clean].
      unfold form_clean. intros c Hc. apply andb_prop in Hc as [Hc _]. apply andb_prop in Hc as [Hc _]. exact Hc. }
    rewrite !F. reflexivity. }
  unfold query_ok. destruct (is_special sch); [exact S|].
  revert S. apply str_forallb_impl. apply special_query_query.
Qed.


Lemma set_rest_none n v seen l :
  existsb (fun p => String.eqb (fst p) n) l = false -> set_rest n v seen l = l.
Proof.
  induction l as [|[a b] l IH]; simpl; [reflexivity|].
  destruct (String.eqb a n); simpl; [discriminate|]. intros H. rewrite (IH H). reflexivity.
Qed.

Lemma set_rest_idem n v seen l : set_rest n v seen (set_rest n v seen l) = set_rest n v seen l.
Proof.
  revert seen. induction l as [|[a b] l IH]; intros seen; simpl; [reflexivity|].
  destruct (String.eqb a n) eqn:E; [destruct seen|]; simpl; rewrite ?E; rewrite ?IH; reflexivity.
Qed.

Lemma set_rest_exists n v l :
  existsb (fun p => String.eqb (fst p) n) l = true ->
  existsb (fun p => String.eqb (fst p) n) (set_rest n v false l) = true.
Proof.
  induction l as [|[a b] l IH]; simpl; [discriminate|].
  destruct (String.eqb a n) eqn:E; simpl; rewrite ?E; auto.
Qed.

Lemma params_set_idem n v l : params_set n v (params_set n v l) = params_set n v l.
Proof.
  unfold params_set. destruct (existsb _ l) eqn:E.
  - rewrite (set_rest_exists n v l E). apply set_rest_idem.
  - rewrite existsb_app, E. simpl. rewrite String.eqb_refl. simpl.
    clear -E. induction l as [|[a b] l IH]; simpl in *.
    + rewrite String.eqb_refl. reflexivity.
    + destruct (String.eqb a n); [discriminate|]. rewrite (IH E). reflexivity.
Qed.

Lemma get_all_set_rest_seen n v l : params_get_all n (set_rest n v true l) = [].
Proof.
  induction l as [|[a b] l IH]; simpl; [reflexivity|].
  destruct (String.eqb a n) eqn:E; [exact IH|]. unfold params_get_all in *. simpl. rewrite E. exact IH.
Qed.

Lemma get_all_none n l :
  existsb (fun p => String.eqb (fst p) n) l = false -> params_get_all n l = [].
Proof.
  induction l as [|[a b] l IH]; simpl; [reflexivity|].
  destruct (String.eqb a n) eqn:E; simpl; [discriminate|]. intros H.
  unfold params_get_all in *. simpl. rewrite E. exact (IH H).
Qed.

(** After [set], the name has exactly the value set. *)
Lemma params_get_all_set n v l : params_get_all n (params_set n v l) = [v].
Proof.
  unfold params_set. destruct (existsb _ l) eqn:E.
  - induction l as [|[a b] l IH]; simpl in *; [discriminate|].
    destruct (String.eqb a n) eqn:Ea.
    + unfold params_get_all. simpl. rewrite Ea. simpl. f_equal. apply get_all_set_rest_seen.
    + unfold params_get_all in *. simpl. rewrite Ea. exact (IH E).
  - unfold params_get_all. rewrite filter_app, map_app. fold (params_get_all n l).
    rewrite (get_all_none n l E). simpl. rewrite String.eqb_refl. reflexivity.
Qed.

Lemma filter_set_rest (q : string * string -> bool) n v seen l :
  (forall x, q (n, x) = false) -> filter q (set_rest n v seen l) = filter q l.
Proof.
  intros Hq. revert seen. induction l as [|[a b] l IH]; intros seen; simpl; [reflexivity|].
  destruct (String.eqb a n) eqn:E.
  - apply String.eqb_eq in E. subst a. rewrite Hq.
    destruct seen; simpl; rewrite ?Hq; apply IH.
  - simpl. rewrite IH. reflexivity.
Qed.

(** [set] touches no pair of another name. *)
Lemma filter_params_set (q : string * string -> bool) n v l :
  (forall x, q (n, x) = false) -> filter q (params_set n v l) = filter q l.
Proof.
  intros Hq. unfold params_set. destruct (existsb _ l).
  - apply filter_set_rest. exact Hq.
  - rewrite filter_app. simpl. rewrite Hq, app_nil_r. reflexivity.
Qed.

Lemma params_get_all_other k n v l :
  k <> n -> params_get_all k (params_set n v l) = params_get_all k l.
Proof.
  intros Hne. unfold params_get_all. rewrite filter_params_set; [reflexivity|].
  intros x. simpl. apply String.eqb_neq. congruence.
Qed.

Lemma url_set_param_idem n v u : url_set_param n v (url_set_param n v u) = url_set_param n v u.
Proof.
  unfold url_set_param at 1. rewrite url_params_set, params_set_idem. reflexivity.
Qed.

Lemma url_params_merge u p : url_params (merge_entry u p) = merge_list (url_params u) p.
Proof.
  unfold merge_entry, merge_list, entry_kv.
  destruct (split_first "=" p) as [[k v]|]; [|reflexivity].
  destruct (String.eqb k ""); [reflexivity|]. apply url_params_set.
Qed.

Lemma url_params_fold es u :
  url_params (fold_left merge_entry es u) = fold_left merge_list es (url_params u).
Proof.
  revert u. induction es as [|p es IH]; intros u; simpl; [reflexivity|].
  rewrite IH, url_params_merge. reflexivity.
Qed.

Lemma get_all_fold k es :
  forall l acc G, params_get_all k l = match acc with Some v => [v] | None => G end ->
  params_get_all k (fold_left merge_list es l) =
  match fold_left (fun acc p => match entry_kv p with
                                | Some (k', v) => if String.eqb k' k then Some v else acc
                                | None => acc
                                end) es acc with
  | Some v => [v] | None => G end.
Proof.
  induction es as [|p es IH]; intros l acc G H; simpl; [exact H|].
  apply IH. unfold merge_list. destruct (entry_kv p) as [[k' v]|]; [|exact H].
  destruct (String.eqb k' k) eqn:E.
  - apply String.eqb_eq in E. subst k'. apply params_get_all_set.
  - rewrite params_get_all_other; [exact H|]. apply String.eqb_neq in E. congruence.
Qed.

(** The last entry setting a name gives its only value; a name no entry
    sets keeps its values. *)
Lemma get_all_merge k es l :
  params_get_all k (fold_left merge_list es l) =
  match last_value k es with Some v => [v] | None => params_get_all k l end.
Proof. apply get_all_fold. reflexivity. Qed.

Lemma filter_merge (q : string * string -> bool) es l :
  (forall k x, In k (entry_keys es) -> q (k, x) = false) ->
  filter q (fold_left merge_list es l) = filter q l.
Proof.
  revert l. induction es as [|p es IH]; intros l Hq; simpl; [reflexivity|].
  rewrite IH.
  - unfold merge_list. destruct (entry_kv p) as [[k v]|] eqn:E; [|reflexivity].
    apply filter_params_set. intros x. apply Hq. unfold entry_keys. simpl. rewrite E. left. reflexivity.
  - intros k x Hk. apply Hq. unfold entry_keys in *. simpl. apply in_or_app. right. exact Hk.
Qed.

Lemma bindM_lift_ok {A B} (a : A) (f : A -> M B) : bindM (lift (Ok a)) f = f a.
Proof. unfold bindM, lift. destruct (f a); reflexivity. Qed.

Lemma bindM_warn {A B} (m m' : M A) (f : A -> M B) ev :
  m = (ev :: fst m', snd m') -> bindM m f = (ev :: fst (bindM m' f), snd (bindM m' f)).
Proof. intros ->. destruct m' as [w [a|e]]; simpl; [destruct (f a)|]; reflexivity. Qed.

Lemma bindM_ret {A B} (a : A) (f : A -> M B) : bindM (ret a) f = f a.
Proof. unfold bindM, ret. destruct (f a); reflexivity. Qed.

Lemma bindM_emit {B} ev (f : unit -> M B) : bindM (emit ev) f = (ev :: fst (f tt), snd (f tt)).
Proof. unfold bindM, emit. destruct (f tt); reflexivity. Qed.

(** [some] over variants none of which matches is false. *)
Lemma js_some_none p xs : (forall x, In (Some x) xs -> p x = Ok false) -> js_some p xs = Ok false.
Proof.
  induction xs as [|[x|] xs IH]; intros H; simpl; [reflexivity| |].
  - rewrite (H x (or_introl eq_refl)). simpl. apply IH. intros y Hy. apply H. right. exact Hy.
  - apply IH. intros y Hy. apply H. right. exact Hy.
Qed.

Lemma last_value_none k es :
  ~ In k (entry_keys es) -> last_value k es = None.
Proof.
  unfold last_value. generalize (@None string) as acc.
  induction es as [|p es IH]; intros acc H; simpl; [reflexivity|].
  unfold entry_keys in H. simpl in H.
  destruct (entry_kv p) as [[k' v]|]; [|apply IH; exact H].
  destruct (String.eqb k' k) eqn:E.
  - apply String.eqb_eq in E. subst k'. exfalso. apply H. left. reflexivity.
  - apply IH. intros Hk. apply H. right. exact Hk.
Qed.

Lemma rev_str_nil s : rev_str s = EmptyString -> s = EmptyString.
Proof. intros H. rewrite <- (rev_str_rev s), H. reflexivity. Qed.

Lemma last_ok_app_ne a b : b <> EmptyString -> last_ok b = true -> last_ok (a ++ b) = true.
Proof.
  unfold last_ok. rewrite rev_str_app. intros Hb.
  destruct (rev_str b) as [|c t] eqn:E; [apply rev_str_nil in E; contradiction|]. simpl. auto.
Qed.

Lemma ends_space_app_ne a b : b <> EmptyString -> ends_space (a ++ b) = ends_space b.
Proof.
  unfold ends_space. rewrite rev_str_app. intros Hb.
  destruct (rev_str b) as [|c t] eqn:E; [apply rev_str_nil in E; contradiction|]. reflexivity.
Qed.

Lemma last_ok_cons c y :
  negb (is_c0_or_space c) = true -> last_ok y = true -> last_ok (String c y) = true.
Proof.
  intros Hc Hy. destruct y as [|d y]; [exact Hc|].
  change (String c (String d y)) with (String c EmptyString ++ String d y)%string.
  apply last_ok_app_ne; [discriminate|exact Hy].
Qed.

Lemma last_ok_forall s : str_forallb (fun c => negb (is_c0_or_space c)) s = true -> last_ok s = true.
Proof.
  rewrite <- str_forallb_rev. unfold last_ok. destruct (rev_str s) as [|c t]; simpl; [reflexivity|].
  intros H. apply andb_prop in H as [H _]. exact H.
Qed.

Lemma rest_char_end c : rest_char c = true -> Ascii.eqb c " "%char = false -> negb (is_c0_or_space c) = true.
Proof. bytes c; vm_compute; intros H1 H2; first [reflexivity | discriminate H1 | discriminate H2]. Qed.

Lemma rest_char_tab c : rest_char c = true -> negb (is_tab_or_newline c) = true.
Proof. bytes c; vm_compute; intros H; first [reflexivity | discriminate H]. Qed.

Lemma rest_char_q c : rest_char c = true -> negb (Ascii.eqb c "?"%char) = true.
Proof. bytes c; vm_compute; intros H; first [reflexivity | discriminate H]. Qed.

Lemma rest_char_h c : rest_char c = true -> negb (Ascii.eqb c "#"%char) = true.
Proof. bytes c; vm_compute; intros H; first [reflexivity | discriminate H]. Qed.

Lemma clean_rest_char c : url_clean_char c = true -> rest_char c = true.
Proof. bytes c; vm_compute; intros H; first [reflexivity | discriminate H]. Qed.

Lemma last_ok_rest s : str_forallb rest_char s = true -> ends_space s = false -> last_ok s = true.
Proof.
  rewrite <- str_forallb_rev. unfold last_ok, ends_space. destruct (rev_str s) as [|c t]; simpl; [reflexivity|].
  intros H E. apply andb_prop in H as [H _]. exact (rest_char_end c H E).
Qed.

Lemma last_ok_ends s : last_ok s = true -> ends_space s = false.
Proof.
  unfold last_ok, ends_space. destruct (rev_str s) as [|c t]; [reflexivity|].
  destruct (Ascii.eqb_spec c " "%char) as [->|]; [intros H; vm_compute in H; discriminate H|reflexivity].
Qed.

Lemma ends_space_suffix p b : last_ok (p ++ b) = true -> ends_space b = false.
Proof.
  intros H. destruct b as [|c b]; [reflexivity|].
  rewrite <- (ends_space_app_ne p) by discriminate. apply last_ok_ends, H.
Qed.

Lemma drop_c0_space_head x :
  match drop_c0_space x with String c _ => is_c0_or_space c = false | EmptyString => True end.
Proof.
  induction x as [|c x IH]; simpl; [exact I|].
  destruct (is_c0_or_space c) eqn:E; [exact IH|exact E].
Qed.

Lemma str_filter_snoc (f : ascii -> bool) a c :
  f c = true -> str_filter f (a ++ String c EmptyString) = (str_filter f a ++ String c EmptyString)%string.
Proof.
  intros H. induction a as [|d a IH]; simpl; [rewrite H; reflexivity|].
  destruct (f d); simpl; rewrite IH; reflexivity.
Qed.

(** The input clean-up leaves no control or space byte at the end. *)
Lemma preprocess_last s : last_ok (preprocess s) = true.
Proof.
  unfold preprocess.
  pose proof (drop_c0_space_head (rev_str (drop_c0_space s))) as Hd.
  destruct (drop_c0_space (rev_str (drop_c0_space s))) as [|c t]; [reflexivity|].
  cbn [rev_str]. rewrite str_filter_snoc.
  - apply last_ok_app_ne; [discriminate|]. unfold last_ok. cbn [rev_str append]. rewrite Hd. reflexivity.
  - destruct (is_tab_or_newline c) eqn:E; [|reflexivity]. rewrite (tab_newline_c0 c E) in Hd. discriminate Hd.
Qed.

(** An input with no tab or newline, whose first and last bytes are no
    control or space bytes, is left as it is. *)
Lemma preprocess_id2 s :
  str_forallb (fun c => negb (is_tab_or_newline c)) s = true ->
  match s with String c _ => is_c0_or_space c = false | EmptyString => True end ->
  last_ok s = true -> preprocess s = s.
Proof.
  intros Ht Hf Hl. unfold preprocess.
  assert (D1 : drop_c0_space s = s) by (destruct s as [|c s]; simpl; [reflexivity|rewrite Hf; reflexivity]).
  assert (D2 : drop_c0_space (rev_str s) = rev_str s).
  { unfold last_ok in Hl. destruct (rev_str s) as [|c t]; simpl; [reflexivity|].
    apply negb_true_iff in Hl. rewrite Hl. reflexivity. }
  rewrite D1, D2, rev_str_rev. apply str_filter_id. exact Ht.
Qed.

Lemma scheme_tail_suffix s a b : scheme_tail s = Some (a, b) -> exists p, s = (p ++ b)%string.
Proof.
  revert a. induction s as [|c s IH]; intros a; simpl; [discriminate|].
  destruct (Ascii.eqb c ":"%char).
  - intros H. inversion H; subst. exists (String c EmptyString). reflexivity.
  - destruct (is_alnum c || is_one_of "+-." c); [|discriminate].
    destruct (scheme_tail s) as [[a' b']|] eqn:E; [|discriminate].
    intros H. inversion H; subst. destruct (IH _ eq_refl) as [p ->]. exists (String c p). reflexivity.
Qed.

Lemma scheme_scan_suffix s a b : scheme_scan s = Some (a, b) -> exists p, s = (p ++ b)%string.
Proof.
  destruct s as [|c s]; simpl; [discriminate|].
  destruct (is_alpha c); [|discriminate].
  destruct (scheme_tail s) as [[a' b']|] eqn:E; [|discriminate].
  intros H. inversion H; subst. destruct (scheme_tail_suffix s _ _ E) as [p ->].
  exists (String c p). reflexivity.
Qed.

Lemma join_amp_nonempty x xs : x <> "" -> join_amp (x :: xs) <> "".
Proof.
  intros H. destruct xs as [|y ys]; [exact H|].
  simpl. destruct x; [contradiction|discriminate].
Qed.

Lemma str_app_ne_r a b : b <> EmptyString -> (a ++ b)%string <> EmptyString.
Proof. destruct a; simpl; [auto|discriminate]. Qed.

(** [searchParams.set] always leaves a non-empty query. *)
Lemma form_serialize_set_ne n v l : form_serialize (params_set n v l) <> "".
Proof.
  unfold params_set.
  assert (Hne : (if existsb (fun p => String.eqb (fst p) n) l then set_rest n v false l
                 else (l ++ [(n, v)])%list) <> []).
  { destruct (existsb _ l) eqn:E.
    - destruct l as [|[a b] l]; [discriminate E|]. simpl.
      destruct (String.eqb a n); discriminate.
    - destruct l; discriminate. }
  destruct (if existsb _ l then _ else _) as [|[a b] r]; [contradiction|].
  unfold form_serialize. cbn [map]. apply join_amp_nonempty. apply str_app_ne_r. discriminate.
Qed.

Section RoundTrip.
Variable hier : string -> string -> option URL -> option string.
(** What the authority, host, path and opaque-path states give: text with
    no C0 control, [?] or [#] (they are percent-encoded, rejected, or end
    the path), which ends with a space only when the input does (an opaque
    path keeps spaces), and which parses back to itself. *)
Hypothesis hier_chars : forall sch body b r, hier sch body b = Some r -> str_forallb rest_char r = true.
Hypothesis hier_space : forall sch body b r, hier sch body b = Some r -> ends_space r = true -> ends_space body = true.
Hypothesis hier_idem : forall sch body b r, hier sch body b = Some r -> hier sch r None = Some r.

Lemma url_wf_chars u : url_wf hier u ->
  str_forallb (fun c => negb (is_tab_or_newline c)) (href u) = true /\
  match href u with String c _ => is_c0_or_space c = false | EmptyString => True end /\
  last_ok (href u) = true /\
  str_forallb (fun c => negb (Ascii.eqb c "#"%char)) (u_scheme u) = true /\
  str_forallb (fun c => negb (Ascii.eqb c "#"%char)) (u_rest u) = true /\
  str_forallb (fun c => negb (Ascii.eqb c "?"%char)) (u_scheme u) = true /\
  str_forallb (fun c => negb (Ascii.eqb c "?"%char)) (u_rest u) = true /\
  (forall x, u_query u = Some x -> str_forallb (fun c => negb (Ascii.eqb c "#"%char)) x = true).
Proof.
  destruct u as [sch rest q f]. unfold url_wf, href; cbn [u_scheme u_rest u_query u_fragment].
  intros (Hs & Hr & Hsp & Hh & Hq & Hf).
  pose proof (valid_scheme_clean sch Hs) as Hsc.
  assert (P : forall (g : ascii -> bool) s, (forall c, url_clean_char c = true -> g c = true) ->
                 str_forallb url_clean_char s = true -> str_forallb g s = true)
    by (intros g s0 Hg; apply str_forallb_impl; exact Hg).
  assert (C0 : forall c, url_clean_char c = true -> negb (is_c0_or_space c) = true)
    by (intros c Hc; apply url_clean_parts in Hc; destruct (negb (is_c0_or_space c)); [reflexivity|discriminate]).
  assert (CQ : forall c, url_clean_char c = true -> negb (Ascii.eqb c "?"%char) = true)
    by (intros c Hc; apply url_clean_parts in Hc; apply andb_prop in Hc as [Hc _];
        apply andb_prop in Hc as [_ Hc]; exact Hc).
  assert (CH : forall c, url_clean_char c = true -> negb (Ascii.eqb c "#"%char) = true)
    by (intros c Hc; apply url_clean_parts in Hc; apply andb_prop in Hc as [_ Hc]; exact Hc).
  assert (T0 : forall c, negb (is_c0_or_space c) = true -> negb (is_tab_or_newline c) = true).
  { intros c Hc. destruct (is_tab_or_newline c) eqn:E; [|reflexivity].
    rewrite (tab_newline_c0 c E) in Hc. discriminate Hc. }
  assert (Qc : forall x, q = Some x -> str_forallb (fun c => negb (is_c0_or_space c)) x = true)
    by (intros x Ex; exact (str_forallb_impl _ _ x
          (fun c Hc => proj1 (andb_prop _ _ (query_ok_parts sch c Hc))) (Hq x Ex))).
  assert (Fc : forall y, f = Some y -> str_forallb (fun c => negb (is_c0_or_space c)) y = true)
    by (intros y Ey; exact (str_forallb_impl _ _ y (fun c Hc => fragment_char_clean c Hc) (Hf y Ey))).
  split; [|split; [|split; [|split; [apply P; auto|split; [apply (str_forallb_impl _ _ _ rest_char_h Hr)
         |split; [apply P; auto|split; [apply (str_forallb_impl _ _ _ rest_char_q Hr)|]]]]]]].
  - assert (Pq : str_forallb (fun c => negb (is_tab_or_newline c))
                   (match q with Some x => "?" ++ x | None => "" end) = true).
    { destruct q as [x|]; [|reflexivity]. cbn [append str_forallb].
      apply (str_forallb_impl _ _ x T0 (Qc x eq_refl)). }
    assert (Pf : str_forallb (fun c => negb (is_tab_or_newline c))
                   (match f with Some y => "#" ++ y | None => "" end) = true).
    { destruct f as [y|]; [|reflexivity]. cbn [append str_forallb].
      apply (str_forallb_impl _ _ y T0 (Fc y eq_refl)). }
    rewrite !str_forallb_app, Pq, Pf, (str_forallb_impl _ _ rest rest_char_tab Hr).
    rewrite (str_forallb_impl _ _ sch (fun c Hc => T0 c (C0 c Hc)) Hsc). reflexivity.
  - destruct sch as [|c r]; [discriminate Hs|]. cbn [str_forallb] in Hsc.
    apply andb_prop in Hsc as [Hc _]. cbn [append]. apply negb_true_iff, C0, Hc.
  - assert (Lr : forall y, str_forallb (fun c => negb (is_c0_or_space c)) y = true -> last_ok y = true)
      by exact last_ok_forall.
    destruct q as [x|], f as [y|]; cbn [append]; rewrite ?str_app_nil_r;
      apply last_ok_app_ne; try discriminate; apply last_ok_cons; try reflexivity.
    + apply last_ok_app_ne; [discriminate|]. apply last_ok_cons; [reflexivity|].
      apply last_ok_app_ne; [discriminate|]. apply last_ok_cons; [reflexivity|]. apply Lr, Fc; reflexivity.
    + apply last_ok_app_ne; [discriminate|]. apply last_ok_cons; [reflexivity|]. apply Lr, Qc; reflexivity.
    + apply last_ok_app_ne; [discriminate|]. apply last_ok_cons; [reflexivity|]. apply Lr, Fc; reflexivity.
    + apply last_ok_rest; [exact Hr|].
      destruct (ends_space rest); [|reflexivity]. destruct (Hsp eq_refl) as [H|H]; contradiction.
  - intros x Ex. subst q.
    apply (str_forallb_impl _ _ _ (fun c Hc => proj2 (andb_prop _ _ (query_ok_parts sch c Hc))) (Hq x eq_refl)).
Qed.


Lemma split_first_cons_ne d c y :
  Ascii.eqb c d = false ->
  split_first d (String c y) = match split_first d y with Some (a, b) => Some (String c a, b) | None => None end.
Proof. intros H. simpl. rewrite H. reflexivity. Qed.

Lemma split_first_hit d y : split_first d (String d y) = Some (EmptyString, y).
Proof. simpl. rewrite Ascii.eqb_refl. reflexivity. Qed.

Lemma url_parse_href u : url_wf hier u -> url_parse hier (href u) None = Some u.
Proof.
  intros Hwf. destruct (url_wf_chars u Hwf) as (Ht & Hf0 & Hl & Hsh & Hrh & Hsq & Hrq & Hqh).
  unfold url_parse. rewrite (preprocess_id2 _ Ht Hf0 Hl).
  destruct u as [sch rest q f]. destruct Hwf as (Hs & Hr & Hsp & Hh & Hq & Hf).
  cbn [u_scheme u_rest u_query u_fragment] in *.
  unfold href. cbn [u_scheme u_rest u_query u_fragment].
  destruct q as [x|], f as [y|]; cbn [append]; rewrite ?str_app_nil_r;
    rewrite (split_first_mid "#" sch) by assumption;
    rewrite split_first_cons_ne by reflexivity.
  - rewrite (split_first_mid "#" rest), split_first_cons_ne, (split_first_mid "#" x), split_first_hit
      by first [assumption | reflexivity | apply Hqh; reflexivity].
    cbv beta iota zeta. rewrite str_app_nil_r.
    rewrite (split_first_mid "?" sch), split_first_cons_ne, (split_first_mid "?" rest), split_first_hit
      by first [assumption | reflexivity].
    cbv beta iota zeta. rewrite str_app_nil_r, scheme_scan_valid, Hh by assumption.
    cbv beta iota zeta.
    unfold encode_query, encode_fragment. cbn [option_map]; rewrite !percent_encode_id;
      [reflexivity | first [apply Hq | apply Hf]; reflexivity ..].
  - rewrite (split_first_mid "#" rest), split_first_cons_ne, (split_first_none "#" x)
      by first [assumption | reflexivity | apply Hqh; reflexivity].
    cbv beta iota zeta.
    rewrite (split_first_mid "?" sch), split_first_cons_ne, (split_first_mid "?" rest), split_first_hit
      by first [assumption | reflexivity].
    cbv beta iota zeta. rewrite str_app_nil_r, scheme_scan_valid, Hh by assumption.
    cbv beta iota zeta.
    unfold encode_query. cbn [option_map]; rewrite !percent_encode_id;
      [reflexivity | first [apply Hq | apply Hf]; reflexivity ..].
  - rewrite (split_first_mid "#" rest), split_first_hit by first [assumption | reflexivity].
    cbv beta iota zeta. rewrite str_app_nil_r.
    rewrite (split_first_mid "?" sch), split_first_cons_ne, (split_first_none "?" rest)
      by first [assumption | reflexivity].
    cbv beta iota zeta. rewrite scheme_scan_valid, Hh by assumption.
    cbv beta iota zeta.
    unfold encode_fragment. cbn [option_map]; rewrite !percent_encode_id;
      [reflexivity | first [apply Hq | apply Hf]; reflexivity ..].
  - rewrite (split_first_none "#" rest) by assumption.
    cbv beta iota zeta.
    rewrite (split_first_mid "?" sch), split_first_cons_ne, (split_first_none "?" rest)
      by first [assumption | reflexivity].
    cbv beta iota zeta. rewrite scheme_scan_valid, Hh by assumption.
    reflexivity.
Qed.

Lemma wf_from_hier sch body ob rest q f :
  valid_scheme sch = true -> hier sch body ob = Some rest ->
  (ends_space body = true -> q <> None \/ f <> None) ->
  (forall x, q = Some x -> query_ok sch x = true) ->
  (forall x, f = Some x -> frag_ok x = true) ->
  url_wf hier (mkURL sch rest q f).
Proof.
  intros Hs Hh Hb Hq Hf. unfold url_wf; cbn [u_scheme u_rest u_query u_fragment].
  split; [exact Hs|]. split; [exact (hier_chars _ _ _ _ Hh)|].
  split; [intros E; exact (Hb (hier_space _ _ _ _ Hh E))|].
  split; [exact (hier_idem _ _ _ _ Hh)|]. split; assumption.
Qed.

Lemma query_field_ok sch (query inh : option string) :
  (forall y, inh = Some y -> query_ok sch y = true) ->
  forall x, match query with Some q => Some (encode_query sch q) | None => inh end = Some x ->
  query_ok sch x = true.
Proof.
  intros Hi x. destruct query as [q|]; [|apply Hi].
  intros E. injection E as <-. apply encode_query_ok.
Qed.

Lemma frag_field_ok (frag : option string) x :
  option_map encode_fragment frag = Some x -> frag_ok x = true.
Proof. destruct frag; simpl; intros E; [injection E as <-; apply encode_fragment_ok | discriminate]. Qed.

(** Every URL the parser gives is well formed, when its base is. *)
Lemma url_parse_wf s ob u :
  url_parse hier s ob = Some u -> (forall b, ob = Some b -> url_wf hier b) -> url_wf hier u.
Proof.
  unfold url_parse. intros H B. cbv beta zeta in H.
  pose proof (preprocess_last s) as PL.
  remember (preprocess s) as t eqn:Et. clear Et.
  match type of H with context [match ?X with _ => _ end] => destruct X as [pre frag] eqn:A end.
  match type of H with context [match ?X with _ => _ end] => destruct X as [head query] eqn:Q end.
  assert (K : frag = None -> query = None -> head = t).
  { intros -> ->. destruct (split_first "#" t) as [[x y]|]; [discriminate A|].
    injection A as A1. subst pre. destruct (split_first "?" t) as [[x y]|]; [discriminate Q|].
    injection Q as Q1. exact (eq_sym Q1). }
  destruct (scheme_scan head) as [[sch body]|] eqn:Es.
  - destruct (hier sch body _) as [rest|] eqn:Eh; [|discriminate]. injection H as <-.
    refine (wf_from_hier sch body _ rest _ _ (scheme_scan_out _ _ _ Es) Eh _ _ _); [| |apply frag_field_ok].
    + intros Esp. destruct frag; [right; discriminate|]. destruct query; [left; discriminate|].
      exfalso. rewrite (K eq_refl eq_refl) in Es.
      destruct (scheme_scan_suffix _ _ _ Es) as [p Ep]. rewrite Ep in PL.
      rewrite (ends_space_suffix p body PL) in Esp. discriminate Esp.
    + apply query_field_ok. intros y Hy.
      destruct ob as [b|]; [|discriminate].
      destruct (is_special sch && String.eqb (u_scheme b) sch) eqn:Eb; [|discriminate].
      destruct (String.eqb body ""); [|discriminate].
      apply andb_prop in Eb as [_ Eb]. apply String.eqb_eq in Eb.
      destruct (B b eq_refl) as (_ & _ & _ & _ & Bq & _). rewrite <- Eb. exact (Bq y Hy).
  - destruct ob as [b|]; [|discriminate].
    pose proof (B b eq_refl) as Hb. destruct Hb as (Bs & Br & Bsp & Bh & Bq & Bf).
    destruct (has_opaque_path b).
    + destruct t as [|c r]; [discriminate|].
      destruct_matches_in H; try discriminate. injection H as <-.
      unfold url_wf; cbn [u_scheme u_rest u_query u_fragment].
      split; [exact Bs|]. split; [exact Br|].
      split; [|split; [exact Bh|]; split; [exact Bq | apply frag_field_ok]].
      intros _. right. cbn in A. inversion A; subst. discriminate.
    + destruct (hier (u_scheme b) head (Some b)) as [rest|] eqn:Eh; [|discriminate].
      injection H as <-.
      apply (wf_from_hier _ head (Some b) rest); [exact Bs | exact Eh | | | apply frag_field_ok].
      * intros Esp. destruct frag; [right; discriminate|]. destruct query; [left; discriminate|].
        exfalso. rewrite (K eq_refl eq_refl), (last_ok_ends t PL) in Esp. discriminate Esp.
      * apply query_field_ok. intros y Hy.
        destruct (String.eqb head ""); [exact (Bq y Hy) | discriminate].
Qed.

Lemma url_wf_set n v u : url_wf hier u -> url_wf hier (url_set_param n v u).
Proof.
  intros H. pose proof (form_serialize_set_ne n v (url_params u)) as Ne.
  destruct u as [sch rest q f]. unfold url_wf in *. unfold url_set_param. cbv zeta.
  cbn [u_scheme u_rest u_query u_fragment] in *.
  destruct H as (Hs & Hr & Hsp & Hh & Hq & Hf).
  destruct (String.eqb (form_serialize (params_set n v (url_params (mkURL sch rest q f)))) "") eqn:E;
    [apply String.eqb_eq in E; contradiction|].
  split; [exact Hs|]. split; [exact Hr|]. split; [intros _; left; discriminate|]. split; [exact Hh|].
  split; [|exact Hf].
  intros x Hx. injection Hx as <-. apply form_serialize_query_ok.
Qed.

Lemma new_URL_wf s u : new_URL hier s None = Ok u -> url_wf hier u.
Proof.
  unfold new_URL. destruct (url_parse hier s None) eqn:E; intros H; [|discriminate].
  injection H as <-. apply (url_parse_wf s None); [exact E | discriminate].
Qed.

Lemma new_URL_href u : url_wf hier u -> new_URL hier (href u) None = Ok u.
Proof. intros H. unfold new_URL. rewrite (url_parse_href u H). reflexivity. Qed.

Lemma url_wf_fold es u : url_wf hier u -> url_wf hier (fold_left merge_entry es u).
Proof.
  revert u. induction es as [|p es IH]; intros u H; simpl; [exact H|].
  apply IH. unfold merge_entry.
  destruct (split_first "=" p) as [[k v]|]; [|exact H].
  destruct (String.eqb k ""); [exact H|]. apply url_wf_set. exact H.
Qed.

(** The URL [appendParamString] returns, parsed again, is the URL it built. *)
Lemma appendParamString_result url p ps u0 out :
  new_URL hier url None = Ok u0 -> to_string p = Ok ps -> truthy p = true ->
  appendParamString hier url p = Ok out ->
  new_URL hier out None = Ok (fold_left merge_entry (param_entries ps) u0).
Proof.
  intros Hu Hp Ht H. unfold appendParamString in H. rewrite Ht, Hu, Hp in H. simpl in H.
  injection H as <-. apply new_URL_href, url_wf_fold, (new_URL_wf url). exact Hu.
Qed.

(** C6 (amended): for a URL the parser accepts and a truthy parameter
    value, [appendParamString] converts the value to a string, splits it
    on [&], trims each entry and drops the empty ones, splits each
    remaining entry at its first [=], skips the entries with no [=] or an
    empty key, and sets the others with [searchParams.set] in order.  Once
    the returned URL is parsed again, a name that some entry sets has
    exactly one value, that of the last entry setting it (later entries
    override earlier ones and the URL's own values); every other name keeps
    the values it had.  This holds for every [hier] with the three
    properties above. *)
Theorem appendParamString_sets url p ps u0 out :
  new_URL hier url None = Ok u0 -> to_string p = Ok ps -> truthy p = true ->
  appendParamString hier url p = Ok out ->
  exists u1, new_URL hier out None = Ok u1 /\
    forall k, params_get_all k (url_params u1) =
      match last_value k (param_entries ps) with
      | Some v => [v]
      | None => params_get_all k (url_params u0)
      end.
Proof.
  intros Hu Hp Ht H. exists (fold_left merge_entry (param_entries ps) u0). split.
  - exact (appendParamString_result url p ps u0 out Hu Hp Ht H).
  - intros k. rewrite url_params_fold. apply get_all_merge.
Qed.

(** C10: [appendParamString] leaves alone every query parameter whose name
    is not the key of one of its entries: once the returned URL is parsed
    again, such a name has the same values as in the input URL, and these
    parameters stay in the same order.  This holds for every [hier] with
    the three properties above. *)
Theorem appendParamString_frame url p ps u0 out :
  new_URL hier url None = Ok u0 -> to_string p = Ok ps ->
  appendParamString hier url p = Ok out ->
  exists u1, new_URL hier out None = Ok u1 /\
    (forall k, ~ In k (entry_keys (param_entries ps)) ->
       params_get_all k (url_params u1) = params_get_all k (url_params u0)) /\
    filter (fun q => negb (existsb (String.eqb (fst q)) (entry_keys (param_entries ps)))) (url_params u1)
    = filter (fun q => negb (existsb (String.eqb (fst q)) (entry_keys (param_entries ps)))) (url_params u0).
Proof.
  intros Hu Hp H. destruct (truthy p) eqn:Ht.
  - exists (fold_left merge_entry (param_entries ps) u0). split; [|split].
    + exact (appendParamString_result url p ps u0 out Hu Hp Ht H).
    + intros k Hk. rewrite url_params_fold, get_all_merge, last_value_none by exact Hk. reflexivity.
    + rewrite url_params_fold. apply filter_merge. intros k x Hk. simpl.
      apply negb_false_iff, existsb_exists. exists k. split; [exact Hk | apply String.eqb_refl].
  - unfold appendParamString in H. rewrite Ht in H. injection H as <-.
    exists u0. split; [exact Hu|]. split; reflexivity.
Qed.

(** C7: applying the variant override again to the URL string a first
    application returned emits the same warnings and returns the same URL
    string and label; in particular the [variant] parameter keeps its
    value.  This holds for every [hier] with the three properties above. *)
Theorem apply_variant_idempotent item urlStr variantRaw w s1 label :
  apply_variant hier item urlStr variantRaw = (w, Ok (s1, label)) ->
  apply_variant hier item s1 variantRaw = (w, Ok (s1, label)).
Proof.
  unfold apply_variant. destruct (String.eqb variantRaw "").
  - unfold ret. intros H. injection H as <- <- <-. reflexivity.
  - destruct (get_prop item "variants") as [vs|e]; [rewrite !bindM_lift_ok | discriminate].
    destruct (variant_allowed vs variantRaw) as [a|e]; [rewrite !bindM_lift_ok | discriminate].
    intros H.
    destruct (new_URL hier urlStr None) as [u|e] eqn:Eu;
      [|destruct a; [rewrite bindM_ret in H | rewrite bindM_emit in H]; discriminate H].
    assert (Hwf : url_wf hier (url_set_param "variant" variantRaw u))
      by (apply url_wf_set, (new_URL_wf urlStr), Eu).
    destruct a; [rewrite bindM_ret in * | rewrite bindM_emit in *];
      rewrite bindM_lift_ok in H; unfold ret in H; injection H as <- <- <-;
      rewrite (new_URL_href _ Hwf), bindM_lift_ok, url_set_param_idem; reflexivity.
Qed.

Lemma apply_variant_mismatch item item' urlStr vr xs vs' :
  vr <> "" -> get_prop item "variants" = Ok (JArr xs) -> variant_allowed (JArr xs) vr = Ok false ->
  get_prop item' "variants" = Ok vs' -> variant_allowed vs' vr = Ok true ->
  apply_variant hier item urlStr vr =
    (EvWarn vr (JArr xs) :: fst (apply_variant hier item' urlStr vr), snd (apply_variant hier item' urlStr vr)).
Proof.
  intros Hv Hg Ha Hg' Ha'. unfold apply_variant.
  apply String.eqb_neq in Hv. rewrite Hv, Hg, Hg', !bindM_lift_ok, Ha, Ha', !bindM_lift_ok.
  rewrite bindM_emit, bindM_ret. reflexivity.
Qed.

(** C5: with a non-empty [variants] list and an override that no entry
    matches ([String(v.variant) === variantRaw] false for every entry),
    [render] is not stopped: it emits the warning, and then exactly what it
    emits for the same item with an allow-list that accepts the override
    (same card, same URL, same automatic navigation).  The URL it goes on
    with, parsed again, has the override as its only [variant] value.
    This holds for every [hier] with the three properties above. *)
Theorem render_item_variant_mismatch location_origin conf params item item' xs vs' raw iid sid :
  let variantRaw := trim (as_string (js_or (params_get "variant" params)
                                      (js_or (params_get "v" params) (JStr "")))) in
  let urlStr := replace_id (encodeURIComponent sid) (trim raw) in
  variantRaw <> "" ->
  get_prop item "variants" = Ok (JArr xs) -> xs <> [] ->
  (forall x, In (Some x) xs -> variant_is variantRaw x = Ok false) ->
  truthy item = true -> get_prop item "url" = Ok (JStr raw) -> trim raw <> "" ->
  get_prop item "id" = Ok iid -> to_string iid = Ok sid ->
  truthy item' = true -> (forall k, k <> "variants" -> get_prop item' k = get_prop item k) ->
  get_prop item' "variants" = Ok vs' -> variant_allowed vs' variantRaw = Ok true ->
  render_item hier location_origin conf params item =
    (EvWarn variantRaw (JArr xs) :: fst (render_item hier location_origin conf params item'),
     snd (render_item hier location_origin conf params item')) /\
  (forall u, new_URL hier urlStr None = Ok u ->
     apply_variant hier item urlStr variantRaw =
       ([EvWarn variantRaw (JArr xs)], Ok (href (url_set_param "variant" variantRaw u), variantRaw)) /\
     new_URL hier (href (url_set_param "variant" variantRaw u)) None = Ok (url_set_param "variant" variantRaw u) /\
     params_get_all "variant" (url_params (url_set_param "variant" variantRaw u)) = [variantRaw]).
Proof.
  intros vr us Hv Hg Hne Hnone Ht Hurl Hraw Hid Hsid Ht' Hk Hg' Ha'.
  assert (Ha : variant_allowed (JArr xs) vr = Ok false).
  { destruct xs as [|x0 xs0]; [congruence|]. apply js_some_none. exact Hnone. }
  split.
  - unfold render_item.
    rewrite (Hk "url"), (Hk "id"), (Hk "title"), (Hk "description") by discriminate.
    rewrite Ht', Ht, Hurl. cbv beta iota. rewrite !bindM_lift_ok.
    apply String.eqb_neq in Hraw. rewrite Hraw. rewrite Hid, !bindM_lift_ok, Hsid, !bindM_lift_ok.
    apply bindM_warn. apply apply_variant_mismatch with (vs' := vs'); assumption.
  - intros u Hu. split; [|split].
    + unfold apply_variant. apply String.eqb_neq in Hv. rewrite Hv, Hg, !bindM_lift_ok, Ha, !bindM_lift_ok.
      rewrite bindM_emit, Hu, bindM_lift_ok. reflexivity.
    + apply new_URL_href, url_wf_set, (new_URL_wf us), Hu.
    + rewrite url_params_set. apply params_get_all_set.
Qed.

End RoundTrip.


Lemma hier_plain_clean sch body b r :
  hier_plain sch body b = Some r -> str_forallb url_clean_char r = true.
Proof.
  unfold hier_plain. destruct (str_forallb url_clean_char body) eqn:E; intros H;
    [injection H as <-; exact E | discriminate].
Qed.

Lemma hier_plain_idem sch body b r : hier_plain sch body b = Some r -> hier_plain sch r None = Some r.
Proof. intros H. unfold hier_plain. rewrite (hier_plain_clean _ _ _ _ H). reflexivity. Qed.

Lemma hier_plain_chars sch body b r : hier_plain sch body b = Some r -> str_forallb rest_char r = true.
Proof. intros H. exact (str_forallb_impl _ _ _ clean_rest_char (hier_plain_clean _ _ _ _ H)). Qed.

Lemma hier_plain_space sch body b r : hier_plain sch body b = Some r -> ends_space r = true -> ends_space body = true.
Proof.
  unfold hier_plain. destruct (str_forallb url_clean_char body); intros H; [injection H as <-; auto|discriminate].
Qed.

Lemma render_item_variant_mismatch_witness :
  render_item hier_plain "https://portal.test" demo_conf (search_params_of "?id=py22a&variant=zz") demo_item =
    (EvWarn "zz" demo_variants
       :: fst (render_item hier_plain "https://portal.test" demo_conf (search_params_of "?id=py22a&variant=zz") demo_item_open),
     snd (render_item hier_plain "https://portal.test" demo_conf (search_params_of "?id=py22a&variant=zz") demo_item_open)).
Proof.
  refine (proj1 (render_item_variant_mismatch hier_plain hier_plain_chars hier_plain_space hier_plain_idem
    "https://portal.test" demo_conf (search_params_of "?id=py22a&variant=zz") demo_item demo_item_open
    [Some (JObj [("variant", JStr "s1")])] (JArr []) "https://x.test/q?id={id}" (JStr "py22a") "py22a"
    _ _ _ _ _ _ _ _ _ _ _ _ _)).
  - vm_compute. discriminate.
  - reflexivity.
  - discriminate.
  - intros x [H|[]]. injection H as <-. reflexivity.
  - reflexivity.
  - reflexivity.
  - vm_compute. discriminate.
  - reflexivity.
  - reflexivity.
  - reflexivity.
  - intros k Hk. unfold get_prop, demo_item_open, demo_item. cbn [assoc_lookup].
    destruct (String.eqb k "variants") eqn:E; [apply String.eqb_eq in E; contradiction | reflexivity].
  - reflexivity.
  - reflexivity.
Defined.

Lemma apply_variant_idempotent_witness :
  apply_variant hier_plain demo_item "https://x.test/q?id=py22a&variant=zz" "zz"
  = ([EvWarn "zz" demo_variants], Ok ("https://x.test/q?id=py22a&variant=zz", "zz")).
Proof.
  apply (apply_variant_idempotent hier_plain hier_plain_chars hier_plain_space hier_plain_idem demo_item
           "https://x.test/q?id=py22a&variant=old" "zz").
  vm_compute. reflexivity.
Defined.

Lemma appendParamString_sets_witness :
  exists u1, new_URL hier_plain "https://x.test/?a=3&b=1&c=2" None = Ok u1 /\
    forall k, params_get_all k (url_params u1) =
      match last_value k (param_entries " a=9&c=2&=x&d&a=3") with
      | Some v => [v]
      | None => params_get_all k (url_params (mkURL "https" "//x.test/" (Some "a=0&b=1") None))
      end.
Proof.
  apply (appendParamString_sets hier_plain hier_plain_chars hier_plain_space hier_plain_idem
           "https://x.test/?a=0&b=1" (JStr " a=9&c=2&=x&d&a=3")); vm_compute; reflexivity.
Defined.

Lemma appendParamString_frame_witness :
  exists u1, new_URL hier_plain "https://x.test/?a=3&b=1&c=2" None = Ok u1 /\
    (forall k, ~ In k (entry_keys (param_entries " a=9&c=2&=x&d&a=3")) ->
       params_get_all k (url_params u1) =
       params_get_all k (url_params (mkURL "https" "//x.test/" (Some "a=0&b=1") None))) /\
    filter (fun q => negb (existsb (String.eqb (fst q)) (entry_keys (param_entries " a=9&c=2&=x&d&a=3"))))
      (url_params u1)
    = filter (fun q => negb (existsb (String.eqb (fst q)) (entry_keys (param_entries " a=9&c=2&=x&d&a=3"))))
      (url_params (mkURL "https" "//x.test/" (Some "a=0&b=1") None)).
Proof.
  apply (appendParamString_frame hier_plain hier_plain_chars hier_plain_space hier_plain_idem
           "https://x.test/?a=0&b=1" (JStr " a=9&c=2&=x&d&a=3")); vm_compute; reflexivity.
Defined.

(** Against C6 as stated: the entry [" a=1"] is trimmed before it is
    split, so it sets [a], not [" a"] (which would serialize as [+a]). *)
Lemma appendParamString_trims_entries :
  appendParamString hier_plain "https://x.test/" (JStr " a=1") = Ok "https://x.test/?a=1" /\
  exists u, new_URL hier_plain "https://x.test/?a=1" None = Ok u /\
    params_get_all " a" (url_params u) = [] /\ params_get_all "a" (url_params u) = ["1"].
Proof.
  split; [vm_compute; reflexivity|].
  eexists. split; [vm_compute; reflexivity|]. split; vm_compute; reflexivity.
Qed.

(* ----------------------------------------------------------------- *)
(** ** Escaping and encoding *)

Lemma escapeHtml_cons c s : escapeHtml (String c s) = (html_tok c ++ escapeHtml s)%string.
Proof. reflexivity. Qed.

Lemma html_tok_unescape c t : html_unescape (html_tok c ++ t) = String c (html_unescape t).
Proof. bytes c; reflexivity. Qed.

Lemma html_tok_safe c :
  str_forallb (fun d => negb (is_one_of "<>'" d || Ascii.eqb d dquote)) (html_tok c) = true.
Proof. bytes c; reflexivity. Qed.

(** [escapeHtml] loses nothing: reading its output back as HTML text gives
    the input string again, whatever bytes it holds. *)
Theorem escapeHtml_unescape s : html_unescape (escapeHtml s) = s.
Proof.
  induction s as [|c s IH]; [reflexivity|].
  rewrite escapeHtml_cons, html_tok_unescape, IH. reflexivity.
Qed.

(** The output of [escapeHtml] holds no [<], [>], double quote or single
    quote, so it can neither open a tag nor close an attribute value. *)
Theorem escapeHtml_no_markup s :
  str_forallb (fun d => negb (is_one_of "<>'" d || Ascii.eqb d dquote)) (escapeHtml s) = true.
Proof.
  induction s as [|c s IH]; [reflexivity|].
  rewrite escapeHtml_cons, str_forallb_app, html_tok_safe, IH. reflexivity.
Qed.

Lemma encodeURIComponent_cons c s :
  encodeURIComponent (String c s) =
  ((if negb (is_alnum c || is_one_of "-_.!~*'()" c) then pct c else String c EmptyString)
   ++ encodeURIComponent s)%string.
Proof. reflexivity. Qed.

Lemma uri_tok_clean c :
  str_forallb uri_component_char
    (if negb (is_alnum c || is_one_of "-_.!~*'()" c) then pct c else String c EmptyString) = true.
Proof. bytes c; reflexivity. Qed.

Lemma uri_tok_decode c t :
  form_decode ((if negb (is_alnum c || is_one_of "-_.!~*'()" c) then pct c else String c EmptyString) ++ t)
  = String c (form_decode t).
Proof. bytes c; reflexivity. Qed.

(** The text [encodeURIComponent] puts in place of [{id}] holds only ASCII
    letters and digits, [-_.!~*'()] and [%]: no [/], [?], [#], [&], [=]
    or [+] that would change the URL's structure. *)
Theorem encodeURIComponent_chars s : str_forallb uri_component_char (encodeURIComponent s) = true.
Proof.
  induction s as [|c s IH]; [reflexivity|].
  rewrite encodeURIComponent_cons, str_forallb_app, uri_tok_clean, IH. reflexivity.
Qed.

(** A query value written by [encodeURIComponent] is read back exactly by
    [URLSearchParams] (whose decoding also turns [+] into a space). *)
Theorem encodeURIComponent_form_decode s : form_decode (encodeURIComponent s) = s.
Proof.
  induction s as [|c s IH]; [reflexivity|].
  rewrite encodeURIComponent_cons, uri_tok_decode, IH. reflexivity.
Qed.

(* ----------------------------------------------------------------- *)
(** ** Options *)

Lemma js_or_default_idem t d : truthy d = true -> js_or (js_or t d) d = js_or t d.
Proof. intros Hd. unfold js_or. destruct (truthy t) eqn:E; [rewrite E | rewrite Hd]; reflexivity. Qed.

(** [normalizeOptions] is idempotent: normalizing the object it returns
    gives that object back, so options that went through it once keep every
    value, defaults included. *)
Theorem normalizeOptions_idempotent opts c :
  normalizeOptions opts = Ok c -> normalizeOptions c = Ok c.
Proof.
  unfold normalizeOptions at 1. cbv zeta.
  match goal with |- context [get_prop ?x "dataset"] => set (o := x) end.
  destruct (get_prop o "dataset") as [d|]; [|discriminate].
  destruct (get_prop o "resolveItem") as [r|]; [|discriminate].
  destruct (get_prop o "target") as [t|]; [|discriminate].
  destruct (get_prop o "readFlags") as [f|]; [|discriminate].
  destruct (get_prop o "header") as [h|]; [|discriminate].
  destruct (get_prop o "headerTitle") as [ht|]; [|discriminate].
  destruct (get_prop o "headerSubject") as [hs|]; [|discriminate].
  destruct (get_prop o "loadingMessage") as [lm|]; [|discriminate].
  intros H. injection H as <-.
  unfold normalizeOptions. cbn -[js_or].
  rewrite !js_or_default_idem by reflexivity.
  assert (Hf : forall b : bool, match JBool b with JBool false => false | _ => true end = b)
    by (intros []; reflexivity).
  rewrite Hf. destruct h; reflexivity.
Qed.

(** Options that are not a plain object ([undefined], [null], a boolean, a
    number, a string, a function or an array) are ignored: every field
    takes its default, [readFlags] and [header] being [true]. *)
Theorem normalizeOptions_non_object opts :
  (forall ps, opts <> JObj ps) -> normalizeOptions opts = Ok default_options.
Proof.
  intros H. destruct opts; try reflexivity.
  - destruct b; reflexivity.
  - unfold normalizeOptions. destruct (truthy (JNum n)); reflexivity.
  - unfold normalizeOptions. destruct (truthy (JStr s)); reflexivity.
  - exfalso. exact (H ps eq_refl).
Qed.

(* ----------------------------------------------------------------- *)
(** ** Looking up a variant *)

Lemma variant_is_true_truthy v x : variant_is v x = Ok true -> truthy x = true.
Proof. unfold variant_is. destruct (truthy x); [reflexivity|discriminate]. Qed.

Lemma js_find_some_find v xs :
  match js_find (variant_is v) (array_values xs) with
  | Ok f => Ok (match f with Some x => truthy x | None => false end)
  | Exc e => Exc e
  end = js_some (variant_is v) xs.
Proof.
  induction xs as [|[x|] xs IH]; simpl; [reflexivity| |].
  - destruct (variant_is v x) as [[]|e] eqn:E; simpl; [|exact IH|reflexivity].
    rewrite (variant_is_true_truthy v x E). reflexivity.
  - unfold variant_is at 1. simpl. exact IH.
Qed.

Lemma js_find_split p xs x :
  js_find p xs = Ok (Some x) ->
  exists pre post, xs = (pre ++ x :: post)%list /\ p x = Ok true /\ Forall (fun y => p y = Ok false) pre.
Proof.
  induction xs as [|y xs IH]; simpl; [discriminate|].
  destruct (p y) as [[]|e] eqn:E; intros H; [| |discriminate H].
  - injection H as <-. exists [], xs. auto.
  - destruct (IH H) as (pre & post & -> & Hx & F). exists (y :: pre), post. auto.
Qed.

(** For an item whose [variants] is a non-empty array, the allow-list test
    of [render] (step 5, with [some]) agrees with [findVariant]: the
    variant is allowed exactly when [findVariant] does not return [null],
    and both throw the same error when [String(v.variant)] throws. *)
Theorem findVariant_allow_list item v xs :
  get_prop item "variants" = Ok (JArr xs) -> xs <> [] ->
  variant_allowed (JArr xs) v =
  match findVariant item v with
  | Ok r => Ok (match r with JNull => false | _ => true end)
  | Exc e => Exc e
  end.
Proof.
  intros Hv Hne. unfold findVariant.
  assert (Ht : truthy item = true) by (destruct item; try discriminate Hv; reflexivity).
  rewrite Ht, Hv. simpl. destruct xs as [|y ys]; [contradiction|].
  rewrite <- js_find_some_find.
  destruct (js_find _ _) as [[x|]|e] eqn:E; [|reflexivity|reflexivity].
  unfold js_or. destruct (truthy x) eqn:Tx; [destruct x; try discriminate Tx; reflexivity|reflexivity].
Qed.

(** [findVariant] returns [null] or the first entry of [item.variants]
    (holes read as [undefined]) whose [String(v.variant)] equals the name:
    the entries before it all fail the test. *)
Theorem findVariant_first item v r :
  findVariant item v = Ok r ->
  r = JNull \/
  exists xs pre post, get_prop item "variants" = Ok (JArr xs) /\
    array_values xs = (pre ++ r :: post)%list /\ variant_is v r = Ok true /\
    Forall (fun x => variant_is v x = Ok false) pre.
Proof.
  unfold findVariant. destruct (truthy item); cbn [negb]; [|intros H; injection H as <-; left; reflexivity].
  destruct (get_prop item "variants") as [vs|e] eqn:V; [|intros H; discriminate H].
  destruct vs; try (intros H; injection H as <-; left; reflexivity).
  destruct (js_find (variant_is v) (array_values xs)) as [[x|]|e] eqn:F;
    [|intros H; injection H as <-; left; reflexivity|intros H; discriminate H].
  intros H. injection H as <-. right.
  destruct (js_find_split _ _ _ F) as (pre & post & E & Hx & P).
  assert (T := variant_is_true_truthy v x Hx).
  unfold js_or. rewrite T. exists xs, pre, post. auto.
Qed.

(* ----------------------------------------------------------------- *)
(** ** What [render] shows *)

Lemma prefix_app p x : String.prefix p (p ++ x) = true.
Proof.
  induction p as [|c p IH]; simpl; [destruct x; reflexivity|].
  destruct (ascii_dec c c); [exact IH|contradiction].
Qed.

(** A non-empty result of [sanitizeFinalUrl] starts with [http:] or [https:]. *)
Lemma sanitizeFinalUrl_prefixed hier o s :
  sanitizeFinalUrl hier o s <> "" -> http_prefixed (sanitizeFinalUrl hier o s) = true.
Proof.
  unfold sanitizeFinalUrl.
  destruct (new_URL hier s (Some o)) as [u|e] eqn:E; [|contradiction].
  destruct (re_test true http_regex (protocol u)) eqn:R; [|contradiction]. intros _.
  assert (P : protocol u = "http:" \/ protocol u = "https:").
  { apply http_regex_lower_string; [|exact R].
    unfold protocol. rewrite str_forallb_app, (new_URL_lower hier s _ u E). reflexivity. }
  assert (Hh : href u = (protocol u ++ u_rest u
    ++ (match u_query u with Some q => "?" ++ q | None => "" end)
    ++ (match u_fragment u with Some f => "#" ++ f | None => "" end))%string).
  { unfold href, protocol. rewrite !str_app_assoc. reflexivity. }
  rewrite Hh. unfold http_prefixed.
  destruct P as [-> | ->]; rewrite prefix_app; [reflexivity|apply orb_true_r].
Qed.

(** The variant step emits at most one event, a warning. *)
Lemma apply_variant_events hier item urlStr vr w r :
  apply_variant hier item urlStr vr = (w, r) -> Forall (fun e => is_warn e = true) w /\ length w <= 1.
Proof.
  unfold apply_variant. destruct (String.eqb vr "").
  - unfold ret. intros H. injection H as <- _. split; [constructor | simpl; lia].
  - unfold bindM, lift, ret, emit.
    destruct (get_prop item "variants") as [vs|e]; cbn -[new_URL];
      [|intros H; injection H as <- _; split; [constructor|simpl; lia]].
    destruct (variant_allowed vs vr) as [[]|e]; cbn -[new_URL];
      [| |intros H; injection H as <- _; split; [constructor|simpl; lia]];
      destruct (new_URL hier urlStr None); simpl; intros H; injection H as <- _;
      (split; [repeat constructor | simpl; lia]).
Qed.

Lemma bindM_ok {A B} w (a : A) (f : A -> M B) : bindM (w, Ok a) f = ((w ++ fst (f a))%list, snd (f a)).
Proof. unfold bindM. destruct (f a); reflexivity. Qed.

Lemma bindM_exc {A B} w e (f : A -> M B) : bindM (w, Exc e) f = (w, Exc e).
Proof. reflexivity. Qed.

Ltac item_exc :=
  intros H; injection H as <- <-; cbn [app]; rewrite ?app_nil_r;
  eexists _, []; rewrite app_nil_r;
  split; [|split; [|split; [reflexivity|reflexivity]]]; try (simpl; lia); auto.

(** Steps 3 to 9 emit at most one warning, then either nothing (when they
    throw) or one of the endings of [item_events]. *)
Lemma render_item_events hier o conf params item w r :
  render_item hier o conf params item = (w, r) ->
  exists ws tail, Forall (fun e => is_warn e = true) ws /\ length ws <= 1 /\ w = (ws ++ tail)%list /\
    match r with Exc _ => tail = [] | Ok _ => item_events conf params tail end.
Proof.
  unfold render_item, lift.
  destruct (if truthy item then _ else _) as [urlRaw|e]; [rewrite bindM_ok|rewrite bindM_exc; item_exc].
  cbv beta. destruct (String.eqb urlRaw "").
  - intros H; injection H as <- <-. exists [], [EvError msg_no_url].
    repeat split; [constructor|simpl; lia|left; reflexivity].
  - destruct (get_prop item "id") as [iid|e]; [rewrite bindM_ok|rewrite bindM_exc; item_exc].
    cbv beta. destruct (to_string iid) as [sid|e]; [rewrite bindM_ok|rewrite bindM_exc; item_exc].
    cbv beta.
    destruct (apply_variant hier item _ _) as [w1 r1] eqn:A.
    destruct (apply_variant_events _ _ _ _ _ _ A) as [W1 L1].
    destruct r1 as [[urlStr label]|e]; [rewrite bindM_ok|rewrite bindM_exc; item_exc].
    cbv beta iota.
    destruct (String.eqb (sanitizeFinalUrl hier o urlStr) "") eqn:F.
    + intros H; injection H as <- <-. exists w1, [EvError msg_bad_url].
      repeat split; auto. right; left; reflexivity.
    + cbv beta iota. apply String.eqb_neq, sanitizeFinalUrl_prefixed in F.
      destruct (get_prop item "title") as [t|e]; [rewrite bindM_ok|rewrite bindM_exc; item_exc].
      cbv beta. rewrite bindM_ok.
      cbv beta. destruct (add_string _ _) as [dt|e]; [rewrite bindM_ok|rewrite bindM_exc; item_exc].
      cbv beta. destruct (get_prop item "description") as [d|e]; [rewrite bindM_ok|rewrite bindM_exc; item_exc].
      cbv beta. destruct (if truthy _ then _ else _) as [dtext|e]; [rewrite bindM_ok|rewrite bindM_exc; item_exc].
      cbv beta. rewrite bindM_emit.
      destruct (c_readFlags conf && flag_on params "auto") eqn:Au;
        [rewrite bindM_emit|]; cbn [fst snd app]; rewrite ?app_nil_l, ?app_nil_r;
        intros H; injection H as <- <-; eexists w1, _;
        (split; [exact W1|]); (split; [exact L1|]); (split; [reflexivity|]);
        right; right; exists dt, dtext, (sanitizeFinalUrl hier o urlStr); split; auto;
        cbv zeta; rewrite Au; reflexivity.
Qed.

Lemma header_step conf :
  match c_header conf with JBool false => ret tt | _ => emit EvHeader end = (header_calls conf, Ok tt).
Proof. unfold header_calls. destruct (c_header conf) as [| |[]| | | | |]; reflexivity. Qed.

(** The body of [render]: the header call, at most one warning, then
    nothing (when it throws) or one of the endings of [body_end]. *)
Lemma render_body_events hier search o data gd conf w r :
  render_body hier search o data gd conf = (w, r) ->
  exists ws tail, Forall (fun e => is_warn e = true) ws /\ length ws <= 1 /\
    w = (header_calls conf ++ ws ++ tail)%list /\
    match r with Exc _ => tail = [] | Ok _ => body_end conf (search_params_of search) tail end.
Proof.
  unfold render_body. rewrite header_step, bindM_ok. cbv beta.
  match goal with |- ((_ ++ fst ?X)%list, snd ?X) = _ -> _ => destruct X as [w0 r0] eqn:B end.
  cbn [fst snd]. intros H; injection H as <- <-. revert B.
  destruct (String.eqb (sanitizeId _) "").
  - intros B; injection B as <- <-. exists [], [EvError msg_missing_id].
    split; [constructor|]. split; [simpl; lia|]. split; [reflexivity|]. left; reflexivity.
  - unfold lift. destruct (match c_resolveItem conf with Some f => _ | None => _ end) as [item|e].
    + rewrite bindM_ok. cbn [fst snd app].
      destruct (render_item hier o conf _ item) as [w1 r1] eqn:RI.
      intros B; injection B as <- <-.
      destruct (render_item_events _ _ _ _ _ _ _ RI) as (ws & tail & W & L & -> & T).
      exists ws, tail. split; [exact W|]. split; [exact L|]. split; [reflexivity|].
      destruct r1; [right; exact T|exact T].
    + rewrite bindM_exc. intros B; injection B as <- <-. exists [], [].
      split; [constructor|]. split; [simpl; lia|]. split; reflexivity.
Qed.

Lemma run_calls_spec dom conf w d f :
  run_calls dom conf w = (d, f) ->
  match f with
  | None => d = w
  | Some e => exists x rest, w = (d ++ x :: rest)%list /\ dom_call dom conf x = Exc e
  end.
Proof.
  revert d f. induction w as [|ev w IH]; intros d f; simpl.
  - intros H; injection H as <- <-. reflexivity.
  - destruct (dom_call dom conf ev) as [u|e] eqn:D.
    + destruct (run_calls dom conf w) as [d' f'] eqn:R. intros H; injection H as <- <-.
      specialize (IH _ _ eq_refl). destruct f' as [e|].
      * destruct IH as (x & rest & -> & Dx). exists x, rest. split; [reflexivity|exact Dx].
      * subst. reflexivity.
    + intros H; injection H as <- <-. exists ev, w. split; [reflexivity|exact D].
Qed.

Lemma run_calls_ok dom conf w :
  Forall (fun ev => succeeds (dom_call dom conf ev) = true) w -> run_calls dom conf w = (w, None).
Proof.
  induction 1 as [|ev w Hev _ IH]; simpl; [reflexivity|].
  destruct (dom_call dom conf ev); [|discriminate]. rewrite IH. reflexivity.
Qed.

Lemma run_calls_with_data dom conf ds ri w :
  run_calls dom (conf_with_data conf ds ri) w = run_calls dom conf w.
Proof.
  induction w as [|ev w IH]; simpl; [reflexivity|].
  replace (dom_call dom (conf_with_data conf ds ri) ev) with (dom_call dom conf ev)
    by (destruct ev; reflexivity).
  rewrite IH. reflexivity.
Qed.

Lemma render_catch_end dom conf e : fault_end (render_catch dom conf e).
Proof.
  unfold render_catch, fault_end. destruct (error_text e) as [m|]; [|right; reflexivity].
  destruct (dom_call _ _ _); [left; exists m; reflexivity|right; reflexivity].
Qed.

Lemma quiet_prefix (pre : list event) y d rest :
  Forall (fun e => quiet e = true) pre -> (pre ++ [y])%list = (d ++ rest)%list -> rest <> [] ->
  Forall (fun e => quiet e = true) d.
Proof.
  revert pre. induction d as [|x d IH]; intros pre P E N; [constructor|].
  destruct pre as [|p pre].
  - simpl in E. injection E as _ E. destruct d, rest; try discriminate. contradiction.
  - simpl in E. injection E as <- E. inversion P; subst. constructor; [assumption|].
    exact (IH pre ltac:(assumption) E N).
Qed.

Lemma header_calls_quiet conf ws :
  Forall (fun e => is_warn e = true) ws ->
  Forall (fun e => quiet e = true) (header_calls conf ++ ws)%list.
Proof.
  intros W. apply Forall_app. split.
  - unfold header_calls. destruct (c_header conf) as [| |[]| | | | |]; repeat constructor.
  - eapply Forall_impl; [|exact W]. intros [] H; try discriminate; reflexivity.
Qed.

Lemma body_end_last conf params tail :
  body_end conf params tail ->
  exists pre y, tail = (pre ++ [y])%list /\ Forall (fun e => quiet e = true) pre.
Proof.
  intros [->|[->|[->|(t & d & u & _ & C)]]]; try (eexists [], _; split; [reflexivity|constructor]).
  cbv zeta in C. destruct (_ && _); subst tail.
  - eexists [EvCard t d u (c_readFlags conf && flag_on params "newtab"); EvLoading (c_loadingMessage conf) u], _.
    split; [reflexivity|repeat constructor].
  - eexists [], _. split; [reflexivity|constructor].
Qed.

(** What [render] shows: a prefix [d] of the calls of its body, then the
    [catch] block ([fin]); when that block runs, the calls done hold no
    error report and no navigation. *)
Lemma render_shape hier search o data gd dom conf :
  exists ws tail d fin,
    Forall (fun e => is_warn e = true) ws /\ length ws <= 1 /\
    (tail = [] \/ body_end conf (search_params_of search) tail) /\
    render hier search o data gd dom conf = (d ++ fin)%list /\
    (exists rest, (header_calls conf ++ ws ++ tail)%list = (d ++ rest)%list) /\
    ((d = (header_calls conf ++ ws ++ tail)%list /\ fin = [] /\ body_end conf (search_params_of search) tail) \/
     (fault_end fin /\ Forall (fun e => quiet e = true) d)).
Proof.
  unfold render.
  destruct (render_body hier search o data gd conf) as [w r] eqn:B.
  destruct (render_body_events _ _ _ _ _ _ _ _ B) as (ws & tail & W & L & Hw & T).
  destruct (run_calls dom conf w) as [d f] eqn:R.
  apply run_calls_spec in R.
  assert (Q : forall rest, tail = [] \/ body_end conf (search_params_of search) tail ->
              w = (d ++ rest)%list -> rest <> [] \/ tail = [] ->
              Forall (fun e => quiet e = true) d).
  { intros rest Tt E N.
    assert (Hnil : tail = [] -> Forall (fun e => quiet e = true) d).
    { intros Tn. rewrite Hw, Tn, app_nil_r in E. pose proof (header_calls_quiet conf ws W) as P.
      rewrite E in P. apply Forall_app in P. apply P. }
    destruct Tt as [Tn|Tb]; [exact (Hnil Tn)|].
    destruct N as [N|Tn]; [|exact (Hnil Tn)].
    destruct (body_end_last _ _ _ Tb) as (pre & y & Ht & P).
    rewrite Hw, Ht in E. rewrite !app_assoc in E.
    refine (quiet_prefix _ y d rest _ E N).
    apply Forall_app. split; [exact (header_calls_quiet conf ws W)|exact P]. }
  exists ws, tail, d.
  destruct f as [e|].
  - destruct R as (x & rest & Hx & _).
    assert (Tt : tail = [] \/ body_end conf (search_params_of search) tail)
      by (destruct r; [right|left]; exact T).
    exists (render_catch dom conf e). split; [exact W|]. split; [exact L|]. split; [exact Tt|].
    split; [reflexivity|]. split; [exists (x :: rest); rewrite <- Hw; exact Hx|].
    right. split; [apply render_catch_end|]. apply (Q (x :: rest) Tt Hx). left; discriminate.
  - subst d. destruct r as [[]|e].
    + exists []. rewrite app_nil_r. split; [exact W|]. split; [exact L|]. split; [right; exact T|].
      split; [reflexivity|]. split; [exists []; rewrite app_nil_r; exact (eq_sym Hw)|].
      left. split; [exact Hw|]. split; [reflexivity|exact T].
    + exists (render_catch dom conf e). split; [exact W|]. split; [exact L|]. split; [left; exact T|].
      split; [reflexivity|]. split; [exists []; rewrite app_nil_r; exact (eq_sym Hw)|].
      right. split; [apply render_catch_end|]. apply (Q [] (or_introl T)); [rewrite app_nil_r; reflexivity|right; exact T].
Qed.

Lemma body_end_in conf params tail e :
  body_end conf params tail -> In e tail ->
  match e with
  | EvError h => h = msg_missing_id \/ h = msg_no_url \/ h = msg_bad_url
  | EvCard _ _ u _ => http_prefixed u = true
  | EvLoading _ u => http_prefixed u = true
  | EvNavigate u => http_prefixed u = true /\ c_readFlags conf = true /\ flag_on params "auto" = true /\
                    exists t d nt, tail = [EvCard t d u nt; EvLoading (c_loadingMessage conf) u; EvNavigate u]
  | EvHeader | EvWarn _ _ | EvConsoleError => False
  end.
Proof.
  intros T H.
  destruct T as [->|[->|[->|(t & d & v & P & C)]]].
  - destruct H as [<-|[]]. left. reflexivity.
  - destruct H as [<-|[]]. right; left. reflexivity.
  - destruct H as [<-|[]]. right; right. reflexivity.
  - cbv zeta in C. destruct (c_readFlags conf && flag_on params "auto") eqn:A; subst tail.
    + apply andb_prop in A as [A1 A2].
      destruct H as [<-|[<-|[<-|[]]]]; auto. repeat split; auto. eauto.
    + destruct H as [<-|[]]. exact P.
Qed.

Lemma fault_end_in fin e :
  fault_end fin -> In e fin -> (exists m, e = EvError (runtime_panel m)) \/ e = EvConsoleError.
Proof. intros [[m ->]| ->] [<-|[]]; eauto. Qed.

(** Every event [render] shows comes from the header, a warning, an ending
    of its body, or the [catch] block. *)
Lemma render_in hier search o data gd dom conf e :
  In e (render hier search o data gd dom conf) ->
  e = EvHeader \/ is_warn e = true \/
  (exists tail, body_end conf (search_params_of search) tail /\ In e tail) \/
  (exists m, e = EvError (runtime_panel m)) \/ e = EvConsoleError.
Proof.
  destruct (render_shape hier search o data gd dom conf)
    as (ws & tail & d & fin & W & _ & Tt & -> & (rest & E) & C).
  intros H. apply in_app_or in H as [H|H].
  - assert (H' : In e (header_calls conf ++ ws ++ tail)%list) by (rewrite E; apply in_or_app; left; exact H).
    apply in_app_or in H' as [H'|H'].
    + left. unfold header_calls in H'. destruct (c_header conf) as [| |[]| | | | |];
        simpl in H'; first [destruct H' as [<-|[]]; reflexivity | destruct H'].
    + apply in_app_or in H' as [H'|H'].
      * right; left. rewrite Forall_forall in W. exact (W e H').
      * destruct Tt as [->|Tb]; [destruct H'|]. right; right; left. eauto.
  - destruct C as [(_ & -> & _)|(F & _)]; [destruct H|].
    right; right; right. exact (fault_end_in _ _ F H).
Qed.

Lemma count_app p l1 l2 : count p (l1 ++ l2) = count p l1 + count p l2.
Proof. unfold count. rewrite filter_app, length_app. reflexivity. Qed.

Lemma count_zero p l : Forall (fun e => p e = false) l -> count p l = 0.
Proof. induction 1 as [|x l Hx _ IH]; unfold count in *; simpl; [reflexivity|]. rewrite Hx. exact IH. Qed.

Lemma count_le_length p l : count p l <= length l.
Proof. unfold count. apply filter_length_le. Qed.

Lemma header_calls_none p conf :
  p EvHeader = false -> count p (header_calls conf) = 0.
Proof. intros Hp. unfold header_calls, count. destruct (c_header conf) as [| |[]| | | | |]; simpl; rewrite ?Hp; reflexivity. Qed.

(** The navigation is the last event of a run that completes: the card,
    then the loading overlay for the same URL, then the navigation. *)
Lemma render_navigate hier search o data gd dom conf u :
  In (EvNavigate u) (render hier search o data gd dom conf) ->
  c_readFlags conf = true /\ flag_on (search_params_of search) "auto" = true /\ http_prefixed u = true /\
  exists pre t d nt, Forall (fun e => quiet e = true) pre /\
    render hier search o data gd dom conf =
      (pre ++ [EvCard t d u nt; EvLoading (c_loadingMessage conf) u; EvNavigate u])%list.
Proof.
  destruct (render_shape hier search o data gd dom conf)
    as (ws & tail & d & fin & W & _ & Tt & -> & _ & C).
  intros H. destruct C as [(-> & -> & Tb)|(F & Q)].
  - rewrite app_nil_r in *.
    apply in_app_or in H as [H|H].
    + exfalso. pose proof (header_calls_quiet conf ws W) as P. rewrite Forall_forall in P.
      specialize (P _ (in_or_app _ _ _ (or_introl H))). discriminate P.
    + apply in_app_or in H as [H|H].
      * rewrite Forall_forall in W. specialize (W _ H). discriminate W.
      * destruct (body_end_in _ _ _ _ Tb H) as (P & R & A & t & d & nt & ->).
        split; [exact R|]. split; [exact A|]. split; [exact P|].
        exists (header_calls conf ++ ws)%list, t, d, nt. split; [exact (header_calls_quiet conf ws W)|].
        rewrite app_assoc. reflexivity.
  - exfalso. apply in_app_or in H as [H|H].
    + rewrite Forall_forall in Q. specialize (Q _ H). discriminate Q.
    + destruct (fault_end_in _ _ F H) as [[m E]|E]; discriminate E.
Qed.

(** Everything before the last event of [render] is no error report. *)
Lemma render_faults hier search o data gd dom conf :
  exists pre tl, render hier search o data gd dom conf = (pre ++ tl)%list /\
    Forall (fun e => quiet e = true) pre /\ length tl <= 1.
Proof.
  destruct (render_shape hier search o data gd dom conf)
    as (ws & tail & d & fin & W & _ & Tt & -> & _ & C).
  destruct C as [(-> & -> & Tb)|(F & Q)].
  - rewrite app_nil_r. destruct (body_end_last _ _ _ Tb) as (pre & y & -> & P).
    exists (header_calls conf ++ ws ++ pre)%list, [y].
    split; [rewrite !app_assoc; reflexivity|]. split; [|simpl; lia].
    rewrite app_assoc. apply Forall_app. split; [exact (header_calls_quiet conf ws W)|exact P].
  - exists d, fin. split; [reflexivity|]. split; [exact Q|].
    destruct F as [[m ->]| ->]; simpl; lia.
Qed.

Lemma body_end_cards conf params tail : body_end conf params tail -> count is_card tail <= 1.
Proof.
  intros [->|[->|[->|(t & d & v & _ & C)]]]; [unfold count; simpl; lia..|].
  cbv zeta in C. destruct (_ && _); subst tail; unfold count; simpl; lia.
Qed.

Lemma body_end_warns conf params tail : body_end conf params tail -> count is_warn tail = 0.
Proof.
  intros [->|[->|[->|(t & d & v & _ & C)]]]; [reflexivity..|].
  cbv zeta in C. destruct (_ && _); subst tail; reflexivity.
Qed.

Lemma fault_end_count p fin : p EvConsoleError = false -> (forall h, p (EvError h) = false) ->
  fault_end fin -> count p fin = 0.
Proof. intros H1 H2 [[m ->]| ->]; unfold count; simpl; rewrite ?H1, ?H2; reflexivity. Qed.

(** The events of [render] that [p] counts are among those of its body. *)
Lemma render_count p hier search o data gd dom conf :
  p EvConsoleError = false -> (forall h, p (EvError h) = false) -> p EvHeader = false ->
  exists ws tail, Forall (fun e => is_warn e = true) ws /\ length ws <= 1 /\
    (tail = [] \/ body_end conf (search_params_of search) tail) /\
    count p (render hier search o data gd dom conf) <= count p ws + count p tail.
Proof.
  intros H1 H2 H3.
  destruct (render_shape hier search o data gd dom conf)
    as (ws & tail & d & fin & W & L & Tt & -> & (rest & E) & C).
  exists ws, tail. split; [exact W|]. split; [exact L|]. split; [exact Tt|].
  assert (Fz : count p fin = 0).
  { destruct C as [(_ & -> & _)|(F & _)]; [reflexivity|exact (fault_end_count p fin H1 H2 F)]. }
  assert (Hd : count p d <= count p (d ++ rest)) by (rewrite count_app; lia).
  rewrite <- E, !count_app, header_calls_none in Hd by exact H3.
  rewrite count_app, Fz. lia.
Qed.

(** Every run of [render] shows at most one warning, at most one card and
    at most one error report (an error panel or a [console.error]), and an
    error report is its last event, after whatever completed before the
    fault: a card may thus be followed by the runtime-error panel.  A run
    that schedules the navigation reports no error. *)
Theorem render_single_outcome hier location_search location_origin data globalThis_data dom conf :
  let evs := render hier location_search location_origin data globalThis_data dom conf in
  count is_warn evs <= 1 /\ count is_card evs <= 1 /\ count is_fault evs <= 1 /\
  (forall e, In e evs -> is_fault e = true -> exists pre, evs = (pre ++ [e])%list) /\
  (forall u, In (EvNavigate u) evs -> count is_fault evs = 0).
Proof.
  cbv zeta. split; [|split; [|split; [|split]]].
  - destruct (render_count is_warn hier location_search location_origin data globalThis_data dom conf
                 eq_refl (fun _ => eq_refl) eq_refl)
      as (ws & tail & W & L & Tt & Le).
    assert (count is_warn tail = 0) by (destruct Tt as [->|Tb]; [reflexivity|exact (body_end_warns _ _ _ Tb)]).
    pose proof (count_le_length is_warn ws). lia.
  - destruct (render_count is_card hier location_search location_origin data globalThis_data dom conf
                 eq_refl (fun _ => eq_refl) eq_refl)
      as (ws & tail & W & L & Tt & Le).
    assert (count is_card ws = 0).
    { apply count_zero. eapply Forall_impl; [|exact W]. intros [] H; try discriminate; reflexivity. }
    assert (count is_card tail <= 1) by (destruct Tt as [->|Tb]; [unfold count; simpl; lia|exact (body_end_cards _ _ _ Tb)]).
    lia.
  - destruct (render_faults hier location_search location_origin data globalThis_data dom conf)
      as (pre & tl & -> & Q & L).
    rewrite count_app, count_zero.
    + pose proof (count_le_length is_fault tl). lia.
    + eapply Forall_impl; [|exact Q]. intros e H. unfold quiet in H.
      destruct (is_fault e); [discriminate|reflexivity].
  - destruct (render_faults hier location_search location_origin data globalThis_data dom conf)
      as (pre & tl & E & Q & L).
    rewrite E. intros e H F. apply in_app_or in H as [H|H].
    + rewrite Forall_forall in Q. specialize (Q e H). unfold quiet in Q. rewrite F in Q. discriminate Q.
    + destruct tl as [|x [|y tl]]; [destruct H| |simpl in L; lia].
      destruct H as [<-|[]]. exists pre. reflexivity.
  - intros u H.
    destruct (render_navigate _ _ _ _ _ _ _ _ H) as (_ & _ & _ & pre & t & d & nt & Q & ->).
    rewrite count_app, count_zero; [reflexivity|].
    eapply Forall_impl; [|exact Q]. intros e He. unfold quiet in He.
    destruct (is_fault e); [discriminate|reflexivity].
Qed.

(** [render] navigates only when [readFlags] is on and the query has
    [auto=1], and only to an http(s) URL; the navigation is then the last
    event, right after the loading overlay with the configured message for
    that URL, itself right after the card for that URL. *)
Theorem render_navigation_guard hier location_search location_origin data globalThis_data dom conf u :
  In (EvNavigate u) (render hier location_search location_origin data globalThis_data dom conf) ->
  c_readFlags conf = true /\ flag_on (search_params_of location_search) "auto" = true /\
  http_prefixed u = true /\
  exists pre t d nt,
    render hier location_search location_origin data globalThis_data dom conf =
      (pre ++ [EvCard t d u nt; EvLoading (c_loadingMessage conf) u; EvNavigate u])%list.
Proof.
  intros H.
  destruct (render_navigate _ _ _ _ _ _ _ _ H) as (R & A & P & pre & t & d & nt & _ & E).
  split; [exact R|]. split; [exact A|]. split; [exact P|]. eauto.
Qed.

(** Every URL [render] puts on the card link, on the loading overlay or
    passes to [location.assign] starts with [http:] or [https:]: never a
    [javascript:] or [data:] URL, whatever the dataset holds. *)
Theorem render_links_http hier location_search location_origin data globalThis_data dom conf u :
  (exists t d nt, In (EvCard t d u nt) (render hier location_search location_origin data globalThis_data dom conf)) \/
  (exists m, In (EvLoading m u) (render hier location_search location_origin data globalThis_data dom conf)) \/
  In (EvNavigate u) (render hier location_search location_origin data globalThis_data dom conf) ->
  http_prefixed u = true.
Proof.
  intros [(t & d & nt & H)|[(m & H)|H]];
    apply render_in in H as [E|[E|[(tail & Tb & H)|[[m' E]|E]]]]; try discriminate;
    apply (body_end_in _ _ _ _ Tb) in H; [exact H|exact H|apply H].
Qed.

(** Every error panel [render] writes with [innerHTML] holds one of its
    three fixed messages or the runtime-error text, in which the error
    message is passed through [escapeHtml]. *)
Theorem render_error_panel hier location_search location_origin data globalThis_data dom conf h :
  In (EvError h) (render hier location_search location_origin data globalThis_data dom conf) ->
  h = msg_missing_id \/ h = msg_no_url \/ h = msg_bad_url \/ exists m, h = runtime_panel m.
Proof.
  intros H. apply render_in in H as [E|[E|[(tail & Tb & H)|[[m E]|E]]]]; try discriminate.
  - apply (body_end_in _ _ _ _ Tb) in H. destruct H as [H|[H|H]]; auto.
  - injection E as ->. right; right; right. eauto.
Qed.

Lemma header_ok_calls dom conf :
  header_ok dom conf = true ->
  Forall (fun ev => succeeds (dom_call dom conf ev) = true) (header_calls conf).
Proof.
  unfold header_ok, header_calls. destruct (c_header conf) as [| |[]| | | | |]; intros H;
    repeat constructor; exact H.
Qed.

(** When the header call and the target lookup do not throw, [render] shows
    what its body does, when the body throws nothing. *)
Lemma render_no_fault hier search o data gd dom conf msg :
  render_body hier search o data gd conf = ((header_calls conf ++ [EvError msg])%list, Ok tt) ->
  header_ok dom conf = true -> target_ok dom conf = true ->
  render hier search o data gd dom conf = (header_calls conf ++ [EvError msg])%list.
Proof.
  intros B Hh Ht. unfold render. rewrite B, run_calls_ok; [reflexivity|].
  apply Forall_app. split; [exact (header_ok_calls dom conf Hh)|].
  constructor; [exact Ht|constructor].
Qed.

Lemma render_body_missing hier search o data gd conf :
  full_id_match (trim (as_string (js_or (params_get "id" (search_params_of search)) (JStr "")))) = false ->
  render_body hier search o data gd conf = ((header_calls conf ++ [EvError msg_missing_id])%list, Ok tt).
Proof.
  intros H. unfold render_body. rewrite header_step, bindM_ok.
  unfold sanitizeId. rewrite re_test_id_regex, H. reflexivity.
Qed.

(** When the [id] query parameter is missing or is not a whole match of
    [[A-Za-z0-9_-]+] once trimmed, [render] consults no dataset: its
    output is the same whatever [data], [globalThis.data], the dataset and
    the resolver are.  When the header call (made unless [header] is
    [false]) and the target lookup do not throw, it shows the header, then
    the missing-id panel, and nothing else: no warning, no card. *)
Theorem render_missing_id hier location_search location_origin data globalThis_data dom conf :
  full_id_match (trim (as_string (js_or (params_get "id" (search_params_of location_search)) (JStr "")))) = false ->
  (forall data' globalThis_data' ds ri,
     render hier location_search location_origin data' globalThis_data' dom (conf_with_data conf ds ri) =
     render hier location_search location_origin data globalThis_data dom conf) /\
  (header_ok dom conf = true -> target_ok dom conf = true ->
   render hier location_search location_origin data globalThis_data dom conf =
     (header_calls conf ++ [EvError msg_missing_id])%list).
Proof.
  intros H. split.
  - intros data' gd' ds ri. unfold render.
    rewrite !(render_body_missing _ _ _ _ _ _ H).
    change (header_calls (conf_with_data conf ds ri)) with (header_calls conf).
    rewrite run_calls_with_data. reflexivity.
  - apply render_no_fault. exact (render_body_missing _ _ _ _ _ _ H).
Qed.

Lemma js_find_none p xs : Forall (fun x => p x = Ok false) xs -> js_find p xs = Ok None.
Proof. induction 1 as [|x xs Hx _ IH]; simpl; [reflexivity|]. rewrite Hx. exact IH. Qed.

(** With the default resolver, a valid id that no array entry carries as
    [id] or [quizId] (or a dataset that is missing, falsy or not an
    object) resolves to the fallback item, whose URL is empty.  When the
    header call and the target lookup do not throw, [render] shows the
    header, then the no-URL panel, and nothing else. *)
Theorem render_unknown_id hier location_search location_origin data globalThis_data dom conf :
  let id := trim (as_string (js_or (params_get "id" (search_params_of location_search)) (JStr ""))) in
  let ds := resolveDataset data globalThis_data (c_dataset conf) in
  c_resolveItem conf = None -> full_id_match id = true ->
  match ds with
  | JObj _ => False
  | JArr xs => Forall (fun x => matches_id id x = Ok false) (array_values xs)
  | _ => True
  end ->
  header_ok dom conf = true -> target_ok dom conf = true ->
  render hier location_search location_origin data globalThis_data dom conf =
    (header_calls conf ++ [EvError msg_no_url])%list.
Proof.
  intros id ds Hr Hid Hds Hh Ht. apply render_no_fault; [|exact Hh|exact Ht].
  unfold render_body. rewrite header_step, bindM_ok. unfold sanitizeId.
  fold id. rewrite re_test_id_regex, Hid, Hr.
  assert (Hne : String.eqb id "" = false).
  { unfold full_id_match in Hid. destruct (String.eqb id ""); [discriminate|reflexivity]. }
  rewrite Hne. fold ds.
  assert (Hf : defaultResolveItem id ds = Ok (fallback_item id)).
  { unfold defaultResolveItem. destruct (truthy ds) eqn:T; [|reflexivity].
    destruct ds; try reflexivity; try contradiction.
    simpl. rewrite (js_find_none _ _ Hds). reflexivity. }
  rewrite Hf. reflexivity.
Qed.

(* ----------------------------------------------------------------- *)
(** ** Appending the same parameters twice *)

Lemma get_all_cons k a b r :
  params_get_all k ((a, b) :: r) = if String.eqb a k then b :: params_get_all k r else params_get_all k r.
Proof. unfold params_get_all. simpl. destruct (String.eqb a k); reflexivity. Qed.

Lemma get_all_length_fst l1 l2 k :
  map fst l1 = map fst l2 -> length (params_get_all k l1) = length (params_get_all k l2).
Proof.
  revert l2. induction l1 as [|[a b] l1 IH]; intros [|[a' b'] l2] H; try discriminate H; [reflexivity|].
  injection H as <- H. rewrite !get_all_cons. destruct (String.eqb a k); simpl; rewrite (IH l2 H); reflexivity.
Qed.

(** Two parameter lists with the same names in the same order and the
    same values for every name are equal. *)
Lemma params_ext l1 l2 :
  map fst l1 = map fst l2 -> (forall k, params_get_all k l1 = params_get_all k l2) -> l1 = l2.
Proof.
  revert l2. induction l1 as [|[a b] l1 IH]; intros [|[a' b'] l2] H G; try discriminate H; [reflexivity|].
  injection H as <- H.
  assert (Ha := G a). rewrite !get_all_cons, String.eqb_refl in Ha. injection Ha as <- Ha.
  f_equal. apply IH; [exact H|]. intros k. specialize (G k). rewrite !get_all_cons in G.
  destruct (String.eqb a k) eqn:E; [|exact G].
  apply String.eqb_eq in E. subst k. exact Ha.
Qed.

Lemma params_set_fst_once k v l x :
  params_get_all k l = [x] -> map fst (params_set k v l) = map fst l.
Proof.
  intros H. unfold params_set.
  destruct (existsb (fun p => String.eqb (fst p) k) l) eqn:Ex;
    [|rewrite (get_all_none k l Ex) in H; discriminate H].
  clear Ex. induction l as [|[a b] l IH]; [discriminate H|].
  rewrite get_all_cons in H. simpl. destruct (String.eqb a k) eqn:E.
  - injection H as _ H. simpl. f_equal.
    rewrite set_rest_none; [reflexivity|].
    destruct (existsb _ l) eqn:Ex; [|reflexivity].
    apply existsb_exists in Ex as ([c d] & Hin & Hc). simpl in Hc.
    apply String.eqb_eq in Hc. subst c.
    assert (In d (params_get_all k l)).
    { unfold params_get_all. apply in_map_iff. exists (k, d). split; [reflexivity|].
      apply filter_In. split; [exact Hin|apply String.eqb_refl]. }
    rewrite H in H0. contradiction.
  - simpl. f_equal. exact (IH H).
Qed.

Lemma value_fold_some k es acc :
  (acc <> None \/ In k (entry_keys es)) -> fold_left (value_step k) es acc <> None.
Proof.
  revert acc. induction es as [|p es IH]; intros acc H; simpl.
  - destruct H as [H|[]]. exact H.
  - apply IH. unfold value_step, entry_keys in *. simpl in H.
    destruct (entry_kv p) as [[k' v]|]; [|exact H].
    destruct (String.eqb k' k) eqn:E; [left; discriminate|].
    destruct H as [H|[H|H]]; auto. apply String.eqb_neq in E. contradiction.
Qed.

Lemma last_value_some k es : In k (entry_keys es) -> exists v, last_value k es = Some v.
Proof.
  intros H. assert (N := value_fold_some k es None (or_intror H)).
  unfold last_value. fold (value_step k).
  destruct (fold_left (value_step k) es None) as [v|]; [eauto|contradiction].
Qed.

Lemma fold_merge_fst es L :
  (forall k, In k (entry_keys es) -> length (params_get_all k L) = 1) ->
  map fst (fold_left merge_list es L) = map fst L.
Proof.
  revert L. induction es as [|p es IH]; intros L H; simpl; [reflexivity|].
  unfold merge_list. unfold entry_keys in H. simpl in H.
  destruct (entry_kv p) as [[k v]|]; [|apply IH; exact H].
  assert (Hk := H k (or_introl eq_refl)).
  destruct (params_get_all k L) as [|x [|y r]] eqn:G; try discriminate Hk.
  assert (F := params_set_fst_once k v L x G).
  rewrite IH; [exact F|]. intros k' Hk'. rewrite (get_all_length_fst _ _ k' F).
  apply H. right. exact Hk'.
Qed.

(** Merging the same entries twice gives the list merging them once gives. *)
Lemma merge_list_fold_idem es l :
  fold_left merge_list es (fold_left merge_list es l) = fold_left merge_list es l.
Proof.
  apply params_ext.
  - apply fold_merge_fst. intros k Hk. destruct (last_value_some k es Hk) as [v Hv].
    rewrite get_all_merge, Hv. reflexivity.
  - intros k. rewrite (get_all_merge k es (fold_left merge_list es l)).
    destruct (last_value k es) as [v|] eqn:Hv; [|reflexivity].
    rewrite get_all_merge, Hv. reflexivity.
Qed.

Lemma merge_entry_kv u p :
  merge_entry u p = match entry_kv p with Some (k, v) => url_set_param k v u | None => u end.
Proof.
  unfold merge_entry, entry_kv. destruct (split_first "=" p) as [[k v]|]; [|reflexivity].
  destruct (String.eqb k ""); reflexivity.
Qed.

Lemma fold_merge_list_nokeys es l : entry_keys es = [] -> fold_left merge_list es l = l.
Proof.
  revert l. induction es as [|p es IH]; intros l H; simpl; [reflexivity|].
  unfold entry_keys in H. simpl in H. unfold merge_list.
  destruct (entry_kv p) as [[k v]|]; [discriminate H|]. apply IH. exact H.
Qed.

Lemma url_set_param_shape k v u :
  url_set_param k v u =
  mkURL (u_scheme u) (u_rest u) (Some (form_serialize (params_set k v (url_params u)))) (u_fragment u).
Proof.
  unfold url_set_param.
  destruct (params_set k v (url_params u)) as [|[a b] r] eqn:E.
  - assert (G := params_get_all_set k v (url_params u)). rewrite E in G. discriminate G.
  - destruct (String.eqb (form_serialize ((a, b) :: r)) "") eqn:S; [|reflexivity].
    apply String.eqb_eq in S. exfalso. revert S. unfold form_serialize. simpl.
    apply join_amp_nonempty. destruct (form_encode a); discriminate.
Qed.

Lemma url_params_some s r q f : url_params (mkURL s r (Some q) f) = form_parse q.
Proof. reflexivity. Qed.

(** After the entries, the URL is unchanged when none sets a parameter,
    and otherwise has the serialized parameter list as its query. *)
Lemma fold_merge_entry_shape es u :
  fold_left merge_entry es u =
  match entry_keys es with
  | [] => u
  | _ => mkURL (u_scheme u) (u_rest u)
              (Some (form_serialize (fold_left merge_list es (url_params u)))) (u_fragment u)
  end.
Proof.
  revert u. induction es as [|p es IH]; intros u; simpl; [reflexivity|].
  rewrite merge_entry_kv. unfold merge_list at 2. unfold entry_keys at 1. simpl.
  destruct (entry_kv p) as [[k v]|]; [|apply IH].
  rewrite IH, url_set_param_shape. cbn [u_scheme u_rest u_query u_fragment].
  rewrite url_params_some, form_parse_serialize.
  destruct (entry_keys es) eqn:K; [|reflexivity].
  rewrite fold_merge_list_nokeys by exact K. reflexivity.
Qed.

Lemma fold_merge_entry_idem es u :
  fold_left merge_entry es (fold_left merge_entry es u) = fold_left merge_entry es u.
Proof.
  rewrite (fold_merge_entry_shape es u). destruct (entry_keys es) eqn:K.
  - rewrite fold_merge_entry_shape, K. reflexivity.
  - rewrite fold_merge_entry_shape, K. cbn [u_scheme u_rest u_query u_fragment].
    rewrite url_params_some, form_parse_serialize, merge_list_fold_idem. reflexivity.
Qed.

Section AppendTwice.
Variable hier : string -> string -> option URL -> option string.
(** The properties of the authority and path states of [Section RoundTrip]. *)
Hypothesis hier_chars : forall sch body b r, hier sch body b = Some r -> str_forallb rest_char r = true.
Hypothesis hier_space : forall sch body b r, hier sch body b = Some r -> ends_space r = true -> ends_space body = true.
Hypothesis hier_idem : forall sch body b r, hier sch body b = Some r -> hier sch r None = Some r.

(** [appendParamString] is idempotent: passing the URL it returned through
    it again with the same parameter string returns that URL unchanged, for
    every parameter string (duplicate keys and entries without [=]
    included), and every [hier] with the three properties above. *)
Theorem appendParamString_idempotent url p out :
  appendParamString hier url p = Ok out -> appendParamString hier out p = Ok out.
Proof.
  unfold appendParamString. destruct (truthy p); cbn [negb]; [|intros H; injection H as <-; reflexivity].
  destruct (new_URL hier url None) as [u|e] eqn:U; [|intros H; discriminate H].
  destruct (to_string p) as [ps|e]; [|intros H; discriminate H]. intros H. injection H as <-.
  rewrite (new_URL_href hier).
  - rewrite fold_merge_entry_idem. reflexivity.
  - apply (url_wf_fold hier).
    apply (new_URL_wf hier hier_chars hier_space hier_idem url). exact U.
Qed.
End AppendTwice.

(* ----------------------------------------------------------------- *)
(** ** Examples *)

Lemma findVariant_first_witness :
  findVariant demo_item "s1" = Ok (JObj [("variant", JStr "s1")]) /\
  (JObj [("variant", JStr "s1")] = JNull \/
   exists xs pre post, get_prop demo_item "variants" = Ok (JArr xs) /\
    array_values xs = (pre ++ JObj [("variant", JStr "s1")] :: post)%list /\
    variant_is "s1" (JObj [("variant", JStr "s1")]) = Ok true /\
    Forall (fun x => variant_is "s1" x = Ok false) pre).
Proof.
  assert (H : findVariant demo_item "s1" = Ok (JObj [("variant", JStr "s1")])) by reflexivity.
  split; [exact H|]. exact (findVariant_first demo_item "s1" _ H).
Defined.

Lemma findVariant_allow_list_witness :
  variant_allowed demo_variants "zz" =
  match findVariant demo_item "zz" with
  | Ok r => Ok (match r with JNull => false | _ => true end)
  | Exc e => Exc e
  end.
Proof. apply (findVariant_allow_list demo_item "zz" [Some (JObj [("variant", JStr "s1")])]); [reflexivity|discriminate]. Defined.

Lemma normalizeOptions_idempotent_witness :
  exists c, normalizeOptions demo_opts = Ok c /\ normalizeOptions c = Ok c.
Proof.
  eexists. split; [reflexivity|]. apply (normalizeOptions_idempotent demo_opts). reflexivity.
Defined.

Lemma normalizeOptions_non_object_witness :
  normalizeOptions (JStr "opts") = Ok default_options.
Proof. apply normalizeOptions_non_object. intros ps H. discriminate H. Defined.

Ltac in_list := vm_compute; repeat (first [left; reflexivity | right]).

Lemma render_navigation_guard_witness :
  In (EvNavigate "https://x.test/q")
     (render hier_plain "?id=py22a&auto=1" "https://portal.test" JUndef JUndef demo_dom demo_nav_conf) /\
  c_readFlags demo_nav_conf = true /\ flag_on (search_params_of "?id=py22a&auto=1") "auto" = true /\
  http_prefixed "https://x.test/q" = true /\
  exists pre t d nt,
    render hier_plain "?id=py22a&auto=1" "https://portal.test" JUndef JUndef demo_dom demo_nav_conf =
      (pre ++ [EvCard t d "https://x.test/q" nt; EvLoading (c_loadingMessage demo_nav_conf) "https://x.test/q";
               EvNavigate "https://x.test/q"])%list.
Proof.
  assert (H : In (EvNavigate "https://x.test/q")
     (render hier_plain "?id=py22a&auto=1" "https://portal.test" JUndef JUndef demo_dom demo_nav_conf)) by in_list.
  split; [exact H|]. exact (render_navigation_guard _ _ _ _ _ _ _ _ H).
Defined.

Lemma render_links_http_witness :
  (exists m, In (EvLoading m "https://x.test/q")
     (render hier_plain "?id=py22a&auto=1" "https://portal.test" JUndef JUndef demo_dom demo_nav_conf)) /\
  http_prefixed "https://x.test/q" = true.
Proof.
  assert (H : exists m, In (EvLoading m "https://x.test/q")
     (render hier_plain "?id=py22a&auto=1" "https://portal.test" JUndef JUndef demo_dom demo_nav_conf))
    by (exists (c_loadingMessage demo_nav_conf); in_list).
  split; [exact H|]. exact (render_links_http _ _ _ _ _ _ _ _ (or_intror (or_introl H))).
Defined.

Lemma render_error_panel_witness :
  In (EvError msg_bad_url)
     (render hier_plain "?id=py22a" "https://portal.test" JUndef JUndef demo_dom demo_bad_conf) /\
  (msg_bad_url = msg_missing_id \/ msg_bad_url = msg_no_url \/ msg_bad_url = msg_bad_url \/
   exists m, msg_bad_url = runtime_panel m).
Proof.
  assert (H : In (EvError msg_bad_url)
    (render hier_plain "?id=py22a" "https://portal.test" JUndef JUndef demo_dom demo_bad_conf)) by in_list.
  split; [exact H|]. exact (render_error_panel _ _ _ _ _ _ _ _ H).
Defined.

Lemma render_missing_id_witness :
  (forall data' globalThis_data' ds ri,
     render hier_plain "?id=a/b" "https://portal.test" data' globalThis_data' demo_dom
       (conf_with_data demo_nav_conf ds ri) =
     render hier_plain "?id=a/b" "https://portal.test" JUndef JUndef demo_dom demo_nav_conf) /\
  (header_ok demo_dom demo_nav_conf = true -> target_ok demo_dom demo_nav_conf = true ->
   render hier_plain "?id=a/b" "https://portal.test" JUndef JUndef demo_dom demo_nav_conf =
     [EvHeader; EvError msg_missing_id]).
Proof.
  assert (H : full_id_match (trim (as_string (js_or (params_get "id" (search_params_of "?id=a/b"))
                (JStr "")))) = false) by (vm_compute; reflexivity).
  exact (render_missing_id hier_plain "?id=a/b" "https://portal.test" JUndef JUndef demo_dom demo_nav_conf H).
Defined.

Lemma render_unknown_id_witness :
  render hier_plain "?id=zz9" "https://portal.test" JUndef JUndef demo_dom demo_nav_conf =
    [EvHeader; EvError msg_no_url].
Proof.
  refine (render_unknown_id hier_plain "?id=zz9" "https://portal.test" JUndef JUndef demo_dom demo_nav_conf
            _ _ _ _ _).
  - reflexivity.
  - vm_compute. reflexivity.
  - vm_compute. repeat constructor.
  - vm_compute. reflexivity.
  - vm_compute. reflexivity.
Defined.

(** [String.prototype.trim] removes the Unicode white space too: a
    no-break space (U+00A0, bytes C2 A0) before an entry of
    [appendParamString] or a variant override, and an ideographic space
    (U+3000, bytes E3 80 80) after it. *)
Example trim_unicode_space :
  trim (String (ascii_of_nat 194) (String (ascii_of_nat 160) "a=1")) = "a=1" /\
  trim ("s1" ++ String (ascii_of_nat 227) (String (ascii_of_nat 128) (String (ascii_of_nat 128) ""))) = "s1" /\
  trim (as_string (js_or (params_get "variant" (search_params_of "?variant=%C2%A0s1")) (JStr ""))) = "s1".
Proof. vm_compute. repeat split. Qed.

(** Other multi-byte characters are kept. *)
Example trim_keeps_text :
  trim (String (ascii_of_nat 194) (String (ascii_of_nat 169) "x")) =
    String (ascii_of_nat 194) (String (ascii_of_nat 169) "x").
Proof. vm_compute. reflexivity. Qed.

(** The loading message is converted only when the overlay is built: one
    whose [toString] throws leaves the card on the page, followed by the
    runtime-error panel, and no navigation. *)
Example render_loading_throws :
  render hier_plain "?id=py22a&auto=1" "https://portal.test" JUndef JUndef demo_dom
    (mkConf (demo_dataset "https://x.test/q") None (JStr "main.portal") true (JBool false)
       JUndef JUndef (JObj [("toString", JFun "f" true (JStr "boom"))])) =
  [EvCard "py22a" "" "https://x.test/q" false; EvError (runtime_panel "boom")].
Proof. vm_compute. reflexivity. Qed.

(** An invalid target selector makes the missing-id panel throw too: the
    error only reaches the console. *)
Example render_bad_selector :
  render hier_plain "" "https://portal.test" JUndef JUndef
    (mkDom (fun sel => if String.eqb sel "#1" then Exc (Thrown (JStr "SyntaxError")) else Ok true)
       true false false)
    (mkConf JUndef None (JStr "#1") true (JBool true) (JStr "T") (JStr "S") JUndef) =
  [EvHeader; EvConsoleError].
Proof. vm_compute. reflexivity. Qed.

Lemma appendParamString_idempotent_witness :
  appendParamString hier_plain "https://x.test/q?a=1" (JStr "b=2&a=3") = Ok "https://x.test/q?a=3&b=2" /\
  appendParamString hier_plain "https://x.test/q?a=3&b=2" (JStr "b=2&a=3") = Ok "https://x.test/q?a=3&b=2".
Proof.
  assert (H : appendParamString hier_plain "https://x.test/q?a=1" (JStr "b=2&a=3") = Ok "https://x.test/q?a=3&b=2")
    by (vm_compute; reflexivity).
  split; [exact H|].
  exact (appendParamString_idempotent hier_plain hier_plain_chars hier_plain_space hier_plain_idem _ _ _ H).
Defined.
